(** * Procedural design: field carving, boundary masks and mesh operations

    A shallow embedding of
    - [src/geometry/boundaries.py]      (boundary mask builders),
    - [src/algorithms/tunnelling.py]    (random-walk field carver),
    - [src/geometry/mesh_operations.py] (isosurface extraction, smoothing,
      validation, decimation, repair)
    and the properties of them that the design document states.

    Conventions.
    - Python [int] is [Z]; Python [float] is idealised as an exact rational
      [Q] (no rounding, no NaN, no infinities).
    - A 3-D [numpy.ndarray] is a shape together with its item function.
    - A raised exception is a [Raise] result.
    - Objects that the code copies, aliases or mutates in place live in a
      store indexed by references. *)

From Stdlib Require Import ZArith QArith Qabs Lqa Lia.
From stdpp Require Import base option list gmap strings pretty.

Local Open Scope Z_scope.

(** ** Exceptions and results *)

Inductive exn := ValueError | IndexError | TypeError.

Inductive result (A : Type) :=
  | Ok (a : A)
  | Raise (e : exn).
Arguments Ok {A} a.
Arguments Raise {A} e.

Global Instance result_ret : MRet result := fun _ a => Ok a.
Global Instance result_bind : MBind result := fun _ _ k m =>
  match m with
  | Ok a => k a
  | Raise e => Raise e
  end.
Global Instance result_fmap : FMap result := fun _ _ f m =>
  match m with
  | Ok a => Ok (f a)
  | Raise e => Raise e
  end.

Definition is_ok {A} (r : result A) : bool :=
  match r with Ok _ => true | Raise _ => false end.

(** ** Arrays *)

(** A three-dimensional [numpy.ndarray]: [shape] and the item at an index.
    Only the items at indices inside the shape are meaningful. *)
Record ndarray (A : Type) := mk_ndarray {
  shape0 : Z;
  shape1 : Z;
  shape2 : Z;
  item : Z -> Z -> Z -> A
}.
Arguments mk_ndarray {A} _ _ _ _.
Arguments shape0 {A} _.
Arguments shape1 {A} _.
Arguments shape2 {A} _.
Arguments item {A} _ _ _ _.

Definition index := (Z * Z * Z)%type.

Definition in_bounds {A} (a : ndarray A) (p : index) : Prop :=
  let '(i, j, k) := p in
  0 <= i < shape0 a /\ 0 <= j < shape1 a /\ 0 <= k < shape2 a.

Definition same_shape {A B} (a : ndarray A) (b : ndarray B) : Prop :=
  shape0 a = shape0 b /\ shape1 a = shape1 b /\ shape2 a = shape2 b.

(** The scalar field is an [n x n x n] array. *)
Definition cubic {A} (a : ndarray A) : Prop :=
  shape1 a = shape0 a /\ shape2 a = shape0 a.

(** [a[i]] along an axis of length [len]: negative indices count from the
    end, anything else out of range raises [IndexError]. *)
Definition axis_index (i len : Z) : result Z :=
  if (0 <=? i) && (i <? len) then Ok i
  else if (- len <=? i) && (i <? 0) then Ok (i + len)
  else Raise IndexError.

(** [a[i, j, k]] *)
Definition getitem {A} (a : ndarray A) (p : index) : result A :=
  let '(i, j, k) := p in
  i' ← axis_index i (shape0 a);
  j' ← axis_index j (shape1 a);
  k' ← axis_index k (shape2 a);
  Ok (item a i' j' k').

(** All indices of an array of the given shape, in C (row-major) order. *)
Definition ndindex (d0 d1 d2 : Z) : list index :=
  i ← seqZ 0 d0; j ← seqZ 0 d1; k ← seqZ 0 d2; [(i, j, k)].

(** [np.array(np.where(mask)).T]: the indices of the True cells. *)
Definition where_T (mask : ndarray bool) : list index :=
  filter (fun p => item mask p.1.1 p.1.2 p.2 = true)
         (ndindex (shape0 mask) (shape1 mask) (shape2 mask)).

(** ** Floating-point helpers, on exact rationals *)

(** [int(q)]: truncation toward zero. *)
Definition py_int (q : Q) : Z := Z.quot (Qnum q) (Z.pos (Qden q)).

(** [np.sqrt(s) <= b] for [s >= 0]. *)
Definition sqrt_le (s b : Q) : bool :=
  Qle_bool 0 b && Qle_bool s (b * b).

(** [np.isclose(a, b)] with numpy's default tolerances. *)
Definition rtol : Q := 1 # 100000.
Definition atol : Q := 1 # 100000000.
Definition isclose (a b : Q) : bool :=
  Qle_bool (Qabs (a - b)) (atol + rtol * Qabs b).

(** ** Boundary masks ([src/geometry/boundaries.py]) *)

(** What the builders return: an array, or a tuple of two values. *)
Inductive pyvalue :=
  | PyBoolArray (a : ndarray bool)
  | PyFloatArray (a : ndarray Q)
  | PyTuple (fst_item snd_item : pyvalue).

(** [t[i]] on a tuple of two. *)
Definition tuple_get (i : Z) (v : pyvalue) : result pyvalue :=
  match v with
  | PyTuple a b =>
      if (i =? 0) || (i =? -2) then Ok a
      else if (i =? 1) || (i =? -1) then Ok b
      else Raise IndexError
  | _ => Raise TypeError
  end.

(** [np.linspace(-1, 1, n)[i]] *)
Definition linspace (n i : Z) : Q :=
  if n =? 1 then (-1)%Q
  else (-1 + inject_Z i * (2 / inject_Z (n - 1)))%Q.

Definition vase_cell (n : Z) (radius_frac taper : Q) (i j k : Z) : bool :=
  let X := linspace n i in
  let Y := linspace n j in
  let Z := linspace n k in
  let Z_norm := ((Z + 1) / 2)%Q in
  let radius_z := (radius_frac * (1 - taper * Z_norm))%Q in
  sqrt_le (X * X + Y * Y)%Q radius_z.

Definition z_norm_cell (n : Z) (i j k : Z) : Q :=
  ((linspace n k + 1) / 2)%Q.

Definition make_vase_mask (n : Z) (radius_frac taper : Q) : result pyvalue :=
  if n <? 0 then Raise ValueError   (* np.linspace rejects a negative count *)
  else
    let mask := mk_ndarray n n n (vase_cell n radius_frac taper) in
    let Z_norm := mk_ndarray n n n (z_norm_cell n) in
    Ok (PyTuple (PyBoolArray mask) (PyFloatArray Z_norm)).

Definition make_cylinder_mask (n : Z) (radius_frac : Q) : result pyvalue :=
  make_vase_mask n radius_frac 0.

(** ** The random generator ([numpy.random.Generator])

    The generator is numpy's; the carver uses three of its operations.
    [default_rng(None)] seeds itself from operating-system entropy, which
    is an input of the run. Seeds are the non-negative integers numpy
    accepts. *)
Class Generator := {
  rng_state : Type;
  seeded : N -> rng_state;                        (* default_rng(seed) *)
  unseeded : N -> rng_state;                      (* default_rng(None), from entropy *)
  integers : Z -> Z -> rng_state -> Z * rng_state;      (* rng.integers(low, high) *)
  integers3 : Z -> Z -> rng_state -> index * rng_state  (* rng.integers(low, high, size=3) *)
}.

Definition default_rng `{Generator} (random_seed : option N) (entropy : N) : rng_state :=
  match random_seed with
  | Some s => seeded s
  | None => unseeded entropy
  end.

(** Draws lie in the half-open interval [[low, high)]. *)
Definition generator_ok (G : Generator) : Prop :=
  (forall lo hi s, lo < hi -> lo <= (integers lo hi s).1 < hi) /\
  (forall lo hi s, lo < hi ->
     let '(a, b, c) := (integers3 lo hi s).1 in
     lo <= a < hi /\ lo <= b < hi /\ lo <= c < hi).

(** A small linear congruential generator, to run the carver on examples. *)
Definition lcg_next (s : Z) : Z := (s * 1103515245 + 12345) mod 2147483648.
Definition lcg_draw (lo hi s : Z) : Z * Z :=
  (lo + (s / 65536) mod (hi - lo), lcg_next s).

Definition lcg : Generator := {|
  rng_state := Z;
  seeded := fun s => Z.of_N s;
  unseeded := fun e => Z.of_N e + 1;
  integers := lcg_draw;
  integers3 := fun lo hi s =>
    let '(a, s1) := lcg_draw lo hi s in
    let '(b, s2) := lcg_draw lo hi s1 in
    let '(c, s3) := lcg_draw lo hi s2 in
    ((a, b, c), s3)
|}.

(** ** The field carver ([src/algorithms/tunnelling.py]) *)

(** [np.clip(v, lo, hi)] *)
Definition clip (v lo hi : Z) : Z := Z.min (Z.max v lo) hi.

(** [slice(start, stop)] on an axis of length [len]: the selected
    half-open range, as [slice.indices] computes it. *)
Definition slice_indices (start stop len : Z) : Z * Z :=
  let adjust v := if v <? 0 then Z.max 0 (v + len) else Z.min v len in
  (adjust start, adjust stop).

(** Number of elements of [np.arange(lo, hi)] and of a slice [lo:hi]. *)
Definition range_len (r : Z * Z) : Z := Z.max 0 (r.2 - r.1).

Definition in_range (r : Z * Z) (i : Z) : bool := (r.1 <=? i) && (i <? r.2).

Section Walk.
Context `{G : Generator}.

(** The agent's loop state: the working copy [f], the generator and the
    position [(x, y, z)]. *)
Record walker := mk_walker {
  w_field : ndarray Q;
  w_rng : rng_state;
  w_pos : index
}.

Variable mask : ndarray bool.
Variable coords : list index.
Variable n : Z.
Variable radius : Q.
Variable reduction_factor : Q.

(** [slice(max(0, int(x - radius)), min(n, int(x + radius + 1)))] *)
Definition carve_slice (x : Z) : Z * Z :=
  (Z.max 0 (py_int (inject_Z x - radius)),
   Z.min n (py_int (inject_Z x + radius + 1))).

(** [R <= radius] at the cell with grid coordinates [(X, Y, Z)]. *)
Definition carve_mask (p : index) (X Y Z : Z) : bool :=
  let '(x, y, z) := p in
  sqrt_le (inject_Z ((X - x) ^ 2 + (Y - y) ^ 2 + (Z - z) ^ 2)) radius.

(** [f[xs, ys, zs][carve_mask] *= reduction_factor].  The boolean index
    has the shape of the [meshgrid]; indexing the view [f[xs, ys, zs]]
    with it raises [IndexError] unless the shapes agree. *)
Definition carve (f : ndarray Q) (p : index) : result (ndarray Q) :=
  let '(x, y, z) := p in
  let xs := carve_slice x in
  let ys := carve_slice y in
  let zs := carve_slice z in
  let vx := slice_indices xs.1 xs.2 (shape0 f) in
  let vy := slice_indices ys.1 ys.2 (shape1 f) in
  let vz := slice_indices zs.1 zs.2 (shape2 f) in
  if (range_len xs =? range_len vx) && (range_len ys =? range_len vy)
     && (range_len zs =? range_len vz)
  then
    Ok (mk_ndarray (shape0 f) (shape1 f) (shape2 f) (fun i j k =>
      if in_range vx i && in_range vy j && in_range vz k
         && carve_mask p (xs.1 + (i - vx.1)) (ys.1 + (j - vy.1)) (zs.1 + (k - vz.1))
      then (item f i j k * reduction_factor)%Q
      else item f i j k))
  else Raise IndexError.

(** [coords[rng.integers(0, len(coords))]] *)
Definition pick (g : rng_state) : result (index * rng_state) :=
  let '(i, g') := integers 0 (Z.of_nat (length coords)) g in
  i' ← axis_index i (Z.of_nat (length coords));
  match coords !! Z.to_nat i' with
  | Some p => Ok (p, g')
  | None => Raise IndexError
  end.

(** The random-walk advance, clamped to the grid. *)
Definition advance (p : index) (d : index) : index :=
  let '(x, y, z) := p in
  let '(dx, dy, dz) := d in
  (clip (x + dx) 0 (n - 1), clip (y + dy) 0 (n - 1), clip (z + dz) 0 (n - 1)).

(** One iteration of the inner loop. *)
Definition step (w : walker) : result walker :=
  f ← carve (w_field w) (w_pos w);
  let '(d, g1) := integers3 (-1) 2 (w_rng w) in
  let p := advance (w_pos w) d in
  inside ← getitem mask p;
  if negb inside then
    '(p', g2) ← pick g1;
    Ok (mk_walker f g2 p')
  else Ok (mk_walker f g1 p).

(** [for _ in range(k)] of the inner loop. *)
Fixpoint run_steps (k : nat) (w : walker) : result walker :=
  match k with
  | O => Ok w
  | S k' => w' ← step w; run_steps k' w'
  end.

Variable agent_steps : nat.

(** An agent starts at a random True cell. *)
Definition start_agent (fg : ndarray Q * rng_state) : result walker :=
  '(p, g) ← pick fg.2;
  Ok (mk_walker fg.1 g p).

(** One iteration of the outer loop. *)
Definition run_agent (fg : ndarray Q * rng_state) : result (ndarray Q * rng_state) :=
  w ← start_agent fg;
  w' ← run_steps agent_steps w;
  Ok (w_field w', w_rng w').

(** [for _ in range(k)] of the outer loop. *)
Fixpoint run_agents (k : nat) (fg : ndarray Q * rng_state) : result (ndarray Q * rng_state) :=
  match k with
  | O => Ok fg
  | S k' => fg' ← run_agent fg; run_agents k' fg'
  end.

(** The loop state at the start of carving iteration [s] of agent [a]
    (both counted from 0). *)
Definition iteration_state (a s : nat) (fg : ndarray Q * rng_state) : result walker :=
  fg' ← run_agents a fg;
  w ← start_agent fg';
  run_steps s w.
End Walk.

(** ** Meshes ([trimesh.Trimesh]) *)

Definition vec3 := (Q * Q * Q)%type.

Record Trimesh := mk_Trimesh {
  vertices : list vec3;
  faces : list (nat * nat * nat)
}.

(** The geometry that the trimesh library derives from a mesh, and the
    library operations the code calls.  They are inputs of the model. *)
Class TrimeshKernel := {
  is_watertight : Trimesh -> bool;
  is_winding_consistent : Trimesh -> bool;
  is_volume : Trimesh -> bool;
  volume : Trimesh -> Q;
  area : Trimesh -> Q;
  area_faces : Trimesh -> list Q;
  bounds : Trimesh -> option (vec3 * vec3);   (* None for a mesh without vertices *)
  vertex_neighbors : Trimesh -> list (list nat);
  vertex_normal : Trimesh -> nat -> vec3;      (* mesh.vertex_normals[i] *)
  simplify_quadric_decimation : Trimesh -> Z -> Trimesh;
  subdivide : Trimesh -> Trimesh;
  merge_vertices : Trimesh -> Trimesh;
  remove_degenerate_faces : Trimesh -> Trimesh;
  remove_duplicate_faces : Trimesh -> Trimesh;
  fill_holes : Trimesh -> result Trimesh;
  fix_normals : Trimesh -> Trimesh;
  (* trimesh.Trimesh(vertices=.., faces=.., vertex_normals=.., process=True) *)
  trimesh_new : list vec3 -> list (nat * nat * nat) -> list vec3 -> Trimesh
}.

(** [skimage.measure.marching_cubes(field, level=.., spacing=..)]: the
    vertices, faces, normals and values of the surface, or an exception.
    It is an input of the model too. *)
Class Skimage := {
  marching_cubes :
    ndarray Q -> Q -> vec3 ->
    result (list vec3 * list (nat * nat * nat) * list vec3 * list Q)
}.

(** ** The object store

    Arrays and meshes are objects: [copy] makes a new one, an assignment
    of a local name makes an alias, an in-place update changes the object
    for every alias. *)

Inductive object :=
  | FieldObj (a : ndarray Q)
  | MaskObj (a : ndarray bool)
  | MeshObj (m : Trimesh).

Abbreviation ref := nat (only parsing).
Abbreviation store := (gmap nat object) (only parsing).

Definition M (A : Type) : Type := store -> result A * store.

Definition retM {A} (a : A) : M A := fun σ => (Ok a, σ).
Definition raiseM {A} (e : exn) : M A := fun σ => (Raise e, σ).
Definition bindM {A B} (m : M A) (k : A -> M B) : M B := fun σ =>
  match m σ with
  | (Ok a, σ') => k a σ'
  | (Raise e, σ') => (Raise e, σ')
  end.

Notation "'let*' x ':=' m 'in' k" := (bindM m (fun x => k))
  (at level 10, x name, m at level 100, k at level 200).

Definition new (o : object) : M ref := fun σ =>
  let l := fresh (dom σ) in (Ok l, <[l := o]> σ).

(** Reading a reference; a name is always bound in Python, so the
    [None] case is not reached from well-formed calls. *)
Definition load (l : ref) : M object := fun σ =>
  match σ !! l with
  | Some o => (Ok o, σ)
  | None => (Raise TypeError, σ)
  end.

Definition load_field (l : ref) : M (ndarray Q) :=
  let* o := load l in
  match o with FieldObj a => retM a | _ => raiseM TypeError end.

Definition load_mask (l : ref) : M (ndarray bool) :=
  let* o := load l in
  match o with MaskObj a => retM a | _ => raiseM TypeError end.

Definition load_mesh (l : ref) : M Trimesh :=
  let* o := load l in
  match o with MeshObj m => retM m | _ => raiseM TypeError end.

(** [x.copy()] *)
Definition copy (l : ref) : M ref := let* o := load l in new o.

(** An in-place update of the array object [l]. *)
Definition inplace_field (l : ref) (g : ndarray Q -> result (ndarray Q)) : M unit :=
  let* a := load_field l in
  match g a with
  | Ok a' => fun σ => (Ok (), <[l := FieldObj a']> σ)
  | Raise e => raiseM e
  end.

(** An in-place update of the mesh object [l]. *)
Definition inplace_mesh (l : ref) (g : Trimesh -> result Trimesh) : M unit :=
  let* m := load_mesh l in
  match g m with
  | Ok m' => fun σ => (Ok (), <[l := MeshObj m']> σ)
  | Raise e => raiseM e
  end.

(** *** [carve_tunnels_random_walk] *)
Definition carve_tunnels_random_walk `{Generator} (field mask : ref)
    (n_agents agent_steps : Z) (radius reduction_factor : Q)
    (random_seed : option N) (entropy : N) : M ref :=
  if (n_agents <=? 0) || (agent_steps <=? 0) then copy field
  else
    let* fv := load_field field in
    let n := shape0 fv in
    let rng := default_rng random_seed entropy in
    let* mv := load_mask mask in
    let coords := where_T mv in
    if (length coords =? 0)%nat then copy field
    else
      let* f := copy field in
      let* _ := inplace_field f (fun a =>
        fst <$> run_agents mv coords n radius reduction_factor
                  (Z.to_nat agent_steps) (Z.to_nat n_agents) (a, rng)) in
      retM f.

(** ** Mesh operations ([src/geometry/mesh_operations.py]) *)

Definition vadd (a b : vec3) : vec3 :=
  (a.1.1 + b.1.1, a.1.2 + b.1.2, a.2 + b.2)%Q.
Definition vscale (c : Q) (a : vec3) : vec3 :=
  (c * a.1.1, c * a.1.2, c * a.2)%Q.
Definition vsum (pts : list vec3) : vec3 := foldr vadd (0, 0, 0)%Q pts.

(** [pts.mean(axis=0)] *)
Definition vmean (pts : list vec3) : vec3 :=
  let s := vsum pts in
  let c := inject_Z (Z.of_nat (length pts)) in
  (s.1.1 / c, s.1.2 / c, s.2 / c)%Q.

(** [vs[idx]] with a list of indices. *)
Fixpoint gather (vs : list vec3) (idx : list nat) : result (list vec3) :=
  match idx with
  | [] => Ok []
  | i :: rest =>
      match vs !! i with
      | Some v => pts ← gather vs rest; Ok (v :: pts)
      | None => Raise IndexError
      end
  end.

(** [for i, neighbors in enumerate(vertex_neighbors)] *)
Definition enumerate {A} (l : list A) : list (nat * A) := imap pair l.

Section Smoothing.
Variable lambda_factor : Q.
(** [mesh_copy.vertices], as it is during the whole pass. *)
Variable old : list vec3.

(** The body of the loop over the vertices. *)
Definition smooth_vertex (new_vertices : list vec3) (it : nat * list nat)
    : result (list vec3) :=
  let '(i, neighbors) := it in
  if (0 <? length neighbors)%nat then
    pts ← gather old neighbors;
    let neighbor_mean := vmean pts in
    match old !! i with
    | Some v =>
        if (i <? length new_vertices)%nat then
          Ok (<[i := vadd (vscale (1 - lambda_factor) v)
                          (vscale lambda_factor neighbor_mean)]> new_vertices)
        else Raise IndexError
    | None => Raise IndexError
    end
  else Ok new_vertices.

(** The loop over the vertices, in the order of [items]. *)
Fixpoint smooth_loop (items : list (nat * list nat)) (new_vertices : list vec3)
    : result (list vec3) :=
  match items with
  | [] => Ok new_vertices
  | it :: rest => nv ← smooth_vertex new_vertices it; smooth_loop rest nv
  end.
End Smoothing.

(** The [displacement_field] argument: a one-dimensional array of [N]
    values or an [N x 3] array. *)
Inductive displacement :=
  | Scalars (d : list Q)
  | Vectors (d : list vec3).

(** [displacement_field.shape[0]] *)
Definition displacement_len (d : displacement) : nat :=
  match d with
  | Scalars d => length d
  | Vectors d => length d
  end.

(** The values stored in a validation report. *)
Inductive value :=
  | VNone
  | VBool (b : bool)
  | VInt (n : Z)
  | VFloat (q : Q)
  | VList (l : list string)
  | VBounds (b : vec3 * vec3)
  | VDims (x y z : Q).          (* {'x': .., 'y': .., 'z': ..} *)

(** [results[key].append(msg)] *)
Definition dict_append (key msg : string) (results : gmap string value)
    : gmap string value :=
  match results !! key with
  | Some (VList l) => <[key := VList (l ++ [msg])]> results
  | _ => results
  end.

Definition vec3_eqb (a b : vec3) : bool :=
  Qeq_bool a.1.1 b.1.1 && Qeq_bool a.1.2 b.1.2 && Qeq_bool a.2 b.2.

(** The rows of [np.unique(vs, axis=0)]: one of every distinct position
    (numpy also sorts them; the code only takes the length). *)
Fixpoint unique_rows (vs : list vec3) : list vec3 :=
  match vs with
  | [] => []
  | v :: rest =>
      if existsb (vec3_eqb v) rest then unique_rows rest
      else v :: unique_rows rest
  end.

(** [np.isclose(areas, 0).sum()] *)
Definition count_close_to_zero (areas : list Q) : Z :=
  Z.of_nat (length (filter (fun a => isclose a 0 = true) areas)).

Section MeshOperations.
Context `{K : TrimeshKernel}.

Definition validate_mesh (mesh : Trimesh) : result (gmap string value) :=
  let results : gmap string value :=
    <["errors" := VList []]> (
    <["warnings" := VList []]> (
    <["bounds" := match bounds mesh with Some b => VBounds b | None => VNone end]> (
    <["surface_area" := VFloat (area mesh)]> (
    <["volume" := if is_volume mesh then VFloat (volume mesh) else VNone]> (
    <["num_faces" := VInt (Z.of_nat (length (faces mesh)))]> (
    <["num_vertices" := VInt (Z.of_nat (length (vertices mesh)))]> (
    <["is_winding_consistent" := VBool (is_winding_consistent mesh)]> (
    <["is_watertight" := VBool (is_watertight mesh)]> (
    <["is_valid" := VBool true]> ∅))))))))) in
  (* Check watertight *)
  let results :=
    if negb (is_watertight mesh) then
      dict_append "errors" "Mesh is not watertight (has holes)"
        (<["is_valid" := VBool false]> results)
    else results in
  (* Check winding *)
  let results :=
    if negb (is_winding_consistent mesh) then
      dict_append "warnings" "Face winding is inconsistent" results
    else results in
  (* Check for degenerate faces *)
  let degenerate := count_close_to_zero (area_faces mesh) in
  let results :=
    if 0 <? degenerate then
      <["degenerate_faces" := VInt degenerate]> (
      dict_append "errors"
        ("Found " +:+ pretty degenerate +:+ " degenerate faces (zero area)")
        (<["is_valid" := VBool false]> results))
    else results in
  (* Check for duplicate vertices *)
  let unique_verts := Z.of_nat (length (unique_rows (vertices mesh))) in
  let duplicates := Z.of_nat (length (vertices mesh)) - unique_verts in
  let results :=
    if 0 <? duplicates then
      <["duplicate_vertices" := VInt duplicates]> (
      dict_append "warnings"
        ("Found " +:+ pretty duplicates +:+ " duplicate vertices") results)
    else results in
  (* Check for self-intersections *)
  let results :=
    if Z.of_nat (length (faces mesh)) <? 50000 then
      if negb (is_volume mesh) then
        dict_append "warnings"
          "Mesh may have self-intersections or is not a volume" results
      else results
    else results in
  (* Bounding box dimensions; [None[1]] is a TypeError *)
  match bounds mesh with
  | None => Raise TypeError
  | Some (lo, hi) =>
      let results :=
        <["dimensions" := VDims (hi.1.1 - lo.1.1) (hi.1.2 - lo.1.2) (hi.2 - lo.2)]>
          results in
      let results := <["has_degenerate_faces" := VBool (0 <? degenerate)]> results in
      let results := <["has_duplicate_vertices" := VBool (0 <? duplicates)]> results in
      let results := <["is_volume" := VBool (is_volume mesh)]> results in
      Ok results
  end.

(** One pass of the loop of [smooth_mesh]. *)
Definition smooth_pass (lambda_factor : Q) (mesh_copy : Trimesh) : result Trimesh :=
  let vertex_neighbors := vertex_neighbors mesh_copy in
  let new_vertices := vertices mesh_copy in      (* .copy() *)
  nv ← smooth_loop lambda_factor (vertices mesh_copy)
         (enumerate vertex_neighbors) new_vertices;
  Ok (mk_Trimesh nv (faces mesh_copy)).

Fixpoint smooth_passes (k : nat) (mesh_copy : ref) (lambda_factor : Q) : M unit :=
  match k with
  | O => retM ()
  | S k' =>
      let* _ := inplace_mesh mesh_copy (smooth_pass lambda_factor) in
      smooth_passes k' mesh_copy lambda_factor
  end.

Definition smooth_mesh (mesh : ref) (iterations : Z) (lambda_factor : Q) : M ref :=
  let* mesh_copy := copy mesh in
  let* _ := smooth_passes (Z.to_nat iterations) mesh_copy lambda_factor in
  retM mesh_copy.

(** [apply_displacement].  The normals are those of [mesh]; the copy is
    displaced in place.  The two combinations of mode and array that
    pass the length test but do not fit raise [ValueError] in numpy:
    with [along_normal], an [N x 3] field becomes [N x 1 x 3] and the
    product has shape [N x N x 3], which cannot be added in place to the
    vertices; without it, a one-dimensional field fails the shape
    test. *)
Definition apply_displacement (mesh : ref) (displacement_field : displacement)
    (amplitude : Q) (along_normal : bool) : M ref :=
  let* mesh_copy := copy mesh in
  let* m := load_mesh mesh in
  if along_normal then
    if negb (displacement_len displacement_field =? length (vertices m))%nat
    then raiseM ValueError
    else
      match displacement_field with
      | Scalars d =>
          let* _ := inplace_mesh mesh_copy (fun c =>
            Ok (mk_Trimesh
                  (imap (fun i v =>
                     vadd v (vscale amplitude
                               (vscale (default 0%Q (d !! i)) (vertex_normal m i))))
                     (vertices c))
                  (faces c))) in
          retM mesh_copy
      | Vectors _ => raiseM ValueError
      end
  else
    match displacement_field with
    | Scalars _ => raiseM ValueError
    | Vectors d =>
        if negb (length d =? length (vertices m))%nat then raiseM ValueError
        else
          let* _ := inplace_mesh mesh_copy (fun c =>
            Ok (mk_Trimesh
                  (imap (fun i v =>
                     vadd v (vscale amplitude (default (0, 0, 0)%Q (d !! i))))
                     (vertices c))
                  (faces c))) in
          retM mesh_copy
    end.

(** The arrays of the model are three-dimensional, so the test
    [field.ndim != 3] never fires. *)
Definition extract_isosurface `{Skimage} (field : ref) (isovalue : Q) (spacing : vec3)
    (smooth : bool) (smooth_iterations : Z) : M ref :=
  let* fv := load_field field in
  match marching_cubes fv isovalue spacing with
  | Raise e => raiseM e
  | Ok (vertices, faces, normals, values) =>
      let* mesh := new (MeshObj (trimesh_new vertices faces normals)) in
      if smooth then smooth_mesh mesh smooth_iterations (1 # 2)
      else retM mesh
  end.



(** The [while] loop of [remesh_uniform], run for at most [fuel]
    iterations; [None] when it is still running then.  Every
    [subdivide] and every decimation makes a new mesh, to which the
    local name [mesh_copy] is rebound. *)
Fixpoint subdivide_loop (fuel : nat) (mesh_copy : ref) (target_faces : Z)
    : M (option ref) :=
  let* m := load_mesh mesh_copy in
  if Z.of_nat (length (faces m)) <? target_faces then
    match fuel with
    | O => retM None
    | S fuel' =>
        let* mesh_copy := new (MeshObj (subdivide m)) in
        let* m := load_mesh mesh_copy in
        (* len(mesh_copy.faces) > target_faces * 1.5 *)
        if 3 * target_faces <? 2 * Z.of_nat (length (faces m)) then
          let* mesh_copy :=
            new (MeshObj (simplify_quadric_decimation m target_faces)) in
          retM (Some mesh_copy)
        else subdivide_loop fuel' mesh_copy target_faces
    end
  else retM (Some mesh_copy).

Definition remesh_uniform (fuel : nat) (mesh : ref) (target_edge_length : option Q)
    (target_faces : option Z) : M (option ref) :=
  let* mesh_copy := copy mesh in
  match target_faces with
  | None => retM (Some mesh_copy)
  | Some target_faces =>
      if target_faces =? 0 then retM (Some mesh_copy)     (* [if target_faces:] *)
      else
        let* m := load_mesh mesh_copy in
        let current_faces := Z.of_nat (length (faces m)) in
        if target_faces <? current_faces then
          let* mesh_copy :=
            new (MeshObj (simplify_quadric_decimation m target_faces)) in
          retM (Some mesh_copy)
        else subdivide_loop fuel mesh_copy target_faces
  end.
End MeshOperations.

(** ** Vocabulary of the statements *)

(** The mask has no True cell. *)
Definition no_true_cell (mask : ndarray bool) : Prop :=
  forall i j k, in_bounds mask (i, j, k) -> item mask i j k = false.

(** [p] is a True cell of the mask. *)
Definition true_cell (mask : ndarray bool) (p : index) : Prop :=
  in_bounds mask p /\ item mask p.1.1 p.1.2 p.2 = true.

(** Every sample of the field is non-negative. *)
Definition nonneg (f : ndarray Q) : Prop :=
  forall i j k, in_bounds f (i, j, k) -> (0 <= item f i j k)%Q.

(** [f'] has the shape of [f] and every non-negative sample of [f] is
    non-negative and no larger in [f']. *)
Definition eroded (f f' : ndarray Q) : Prop :=
  same_shape f' f /\
  forall i j k, (0 <= item f i j k -> 0 <= item f' i j k <= item f i j k)%Q.

(** The working copy is [n x n x n] and the agent stands on a True cell. *)
Definition good `{Generator} (mask : ndarray bool) (n : Z) (w : walker) : Prop :=
  (shape0 (w_field w) = n /\ shape1 (w_field w) = n /\ shape2 (w_field w) = n) /\
  true_cell mask (w_pos w).

(** [(1 - λ)·v + λ·mean(pts)] *)
Definition blend (lambda_factor : Q) (v : vec3) (pts : list vec3) : vec3 :=
  vadd (vscale (1 - lambda_factor) v) (vscale lambda_factor (vmean pts)).

(** The inputs the carver is written for: an [n x n x n] field and a mask
    of the same shape. *)
Definition well_shaped (field : ndarray Q) (mask : ndarray bool) : Prop :=
  cubic field /\ same_shape mask field.

(** The store [σ'] keeps every object of [σ] as it is. *)
Definition preserves (σ σ' : store) : Prop :=
  forall l o, σ !! l = Some o -> σ' !! l = Some o.




(** ** Sample data *)

Definition ones (n : Z) : ndarray Q := mk_ndarray n n n (fun _ _ _ => 1%Q).
Definition full_mask (n : Z) : ndarray bool := mk_ndarray n n n (fun _ _ _ => true).

(** A store with a field at reference 0 and a mask at reference 1. *)
Definition sample_store (field : ndarray Q) (mask : ndarray bool) : store :=
  <[1%nat := MaskObj mask]> (<[0%nat := FieldObj field]> ∅).

(** A kernel that answers from a table, whatever the mesh. *)
Definition table_kernel (watertight winding vol : bool) (areas : list Q)
    (box : option (vec3 * vec3)) (neighbors : list (list nat)) : TrimeshKernel := {|
  is_watertight := fun _ => watertight;
  is_winding_consistent := fun _ => winding;
  is_volume := fun _ => vol;
  volume := fun _ => 0%Q;
  area := fun _ => fold_right Qplus 0%Q areas;
  area_faces := fun _ => areas;
  bounds := fun _ => box;
  vertex_neighbors := fun _ => neighbors;
  vertex_normal := fun _ _ => (0, 0, 1)%Q;
  simplify_quadric_decimation := fun m target =>
    mk_Trimesh (vertices m) (take (Z.to_nat target) (faces m));
  subdivide := fun m => mk_Trimesh (vertices m) (faces m ++ faces m);
  merge_vertices := fun m => m;
  remove_degenerate_faces := fun m => m;
  remove_duplicate_faces := fun m => m;
  fill_holes := fun m => Raise ValueError;
  fix_normals := fun m => m;
  trimesh_new := fun vs fs _ => mk_Trimesh vs fs
|}.

(** A single triangle, and a square made of two triangles with one of
    its corners stored twice and a third, collapsed face. *)
Definition triangle : Trimesh :=
  mk_Trimesh [(0, 0, 0); (1, 0, 0); (0, 1, 0)]%Q [(0, 1, 2)%nat].
Definition square : Trimesh :=
  mk_Trimesh [(0, 0, 0); (1, 0, 0); (1, 1, 0); (0, 1, 0); (0, 0, 0)]%Q
             [(0, 1, 2); (0, 2, 3); (0, 4, 4)]%nat.
Definition unit_box : vec3 * vec3 := ((0, 0, 0), (1, 1, 0))%Q.

(** A store with one mesh, at reference 0. *)
Definition mesh_store (m : Trimesh) : store := <[0%nat := MeshObj m]> ∅.

(** The table for [triangle]: open, consistently wound, every vertex a
    neighbour of the other two. *)
Definition triangle_kernel : TrimeshKernel :=
  table_kernel false true false [1 # 2]%Q (Some unit_box)
    [[1; 2]; [0; 2]; [0; 1]]%nat.

(** The table for [square]: two faces of area 1/2 and one of area 0. *)
Definition square_kernel : TrimeshKernel :=
  table_kernel false false false [1 # 2; 1 # 2; 0]%Q (Some unit_box)
    [[1; 2; 3]; [0; 2]; [0; 1; 3]; [0; 2]; []]%nat.

(** ** The other boundary masks ([src/geometry/boundaries.py]) *)

Definition sphere_cell (n : Z) (radius_frac : Q) (i j k : Z) : bool :=
  let X := linspace n i in
  let Y := linspace n j in
  let Z := linspace n k in
  sqrt_le (X * X + Y * Y + Z * Z)%Q radius_frac.

Definition make_sphere_mask (n : Z) (radius_frac : Q) : result pyvalue :=
  if n <? 0 then Raise ValueError
  else Ok (PyBoolArray (mk_ndarray n n n (sphere_cell n radius_frac))).

Definition box_cell (n : Z) (size_frac : Q) (i j k : Z) : bool :=
  let X := linspace n i in
  let Y := linspace n j in
  let Z := linspace n k in
  let half_size := size_frac in
  Qle_bool (Qabs X) half_size && Qle_bool (Qabs Y) half_size
  && Qle_bool (Qabs Z) half_size.

Definition make_box_mask (n : Z) (size_frac : Q) : result pyvalue :=
  if n <? 0 then Raise ValueError
  else Ok (PyBoolArray (mk_ndarray n n n (box_cell n size_frac))).

(** Every True cell of [a] is a True cell of [b]. *)
Definition mask_subset (a b : ndarray bool) : Prop :=
  forall i j k, item a i j k = true -> item b i j k = true.

(** The mask a builder returns: the array itself, or component 0 of the
    tuple; [None] when the builder raises. *)
Definition mask_of (r : result pyvalue) : option (ndarray bool) :=
  match r with
  | Ok (PyBoolArray m) => Some m
  | Ok (PyTuple (PyBoolArray m) _) => Some m
  | _ => None
  end.

(** Component 1 of the tuple a builder returns. *)
Definition z_norm_of (r : result pyvalue) : option (ndarray Q) :=
  match r with
  | Ok (PyTuple _ (PyFloatArray z)) => Some z
  | _ => None
  end.

(** ** Vocabulary for the carver *)

(** [q ** k] for a natural exponent. *)
Fixpoint qpow (q : Q) (k : nat) : Q :=
  match k with
  | O => 1%Q
  | S k' => (q * qpow q k')%Q
  end.

(** [f'] has the shape of [f] and every sample of [f'] is the sample of
    [f] times [rf ** k] for some [k <= K]. *)
Definition scaled_by (rf : Q) (K : nat) (f f' : ndarray Q) : Prop :=
  same_shape f' f /\
  forall i j k, exists e, (e <= K)%nat /\ (item f' i j k == item f i j k * qpow rf e)%Q.




(** ** Vocabulary for the mesh operations *)

(** [k] passes of the loop of [smooth_mesh] on the copy: the outcome of
    the loop and the copy as the last completed pass left it. *)
Fixpoint smooth_run `{TrimeshKernel} (k : nat) (lambda_factor : Q) (m : Trimesh)
    : result unit * Trimesh :=
  match k with
  | O => (Ok (), m)
  | S k' =>
      match smooth_pass lambda_factor m with
      | Ok m' => smooth_run k' lambda_factor m'
      | Raise e => (Raise e, m)
      end
  end.


(** The same position, as rational numbers. *)
Definition vec3_eq (a b : vec3) : Prop :=
  (a.1.1 == b.1.1 /\ a.1.2 == b.1.2 /\ a.2 == b.2)%Q.

(** ** Overhang analysis and extrusion ([src/geometry/mesh_operations.py]) *)

(** [mesh.face_normals] and [np.cos(np.deg2rad(angle))]: library values,
    inputs of the model. *)
Class OverhangKernel := {
  face_normals : Trimesh -> list vec3;
  cos_deg : Q -> Q
}.




(** A two-dimensional array of floats. *)
Record ndarray2 := mk_ndarray2 {
  rows : Z;
  cols : Z;
  item2 : Z -> Z -> Q
}.

(** [np.zeros((d0, d1, d2))]: a negative dimension raises [ValueError]. *)
Definition zeros (d0 d1 d2 : Z) : result (ndarray Q) :=
  if (d0 <? 0) || (d1 <? 0) || (d2 <? 0) then Raise ValueError
  else Ok (mk_ndarray d0 d1 d2 (fun _ _ _ => 0%Q)).

(** [field_3d[:, :, i] = pattern_2d], for a pattern of the shape of the
    layer. *)
Definition set_layer (field_3d : ndarray Q) (i : Z) (pattern_2d : ndarray2)
    : result (ndarray Q) :=
  i' ← axis_index i (shape2 field_3d);
  Ok (mk_ndarray (shape0 field_3d) (shape1 field_3d) (shape2 field_3d)
        (fun a b c => if c =? i' then item2 pattern_2d a b else item field_3d a b c)).

(** [for i in range(..): field_3d[:, :, i] = pattern_2d] *)
Fixpoint extrude_loop (layers : list Z) (pattern_2d : ndarray2) (field_3d : ndarray Q)
    : result (ndarray Q) :=
  match layers with
  | [] => Ok field_3d
  | i :: rest => f ← set_layer field_3d i pattern_2d; extrude_loop rest pattern_2d f
  end.

(** The pattern of the model is two-dimensional, so the unpacking of its
    shape does not fail.  [extrude_height] is not used. *)
Definition create_field_from_pattern (pattern_2d : ndarray2) (height_samples : Z)
    (extrude_height : Q) : result (ndarray Q) :=
  let h := rows pattern_2d in
  let w := cols pattern_2d in
  field_3d ← zeros h w height_samples;
  extrude_loop (seqZ 0 height_samples) pattern_2d field_3d.

(** ** Notebook paths ([src/utils/notebook.py]) *)

(** A resolved absolute path: its components below the root. *)
Abbreviation path := (list string) (only parsing).

(** [parent.name]; the name of the root is the empty string. *)
Definition path_name (p : path) : string := default EmptyString (last p).

(** [[current] + list(current.parents)]: the path and its ancestors, up
    to the root. *)
Definition ancestors (current : path) : list path :=
  map (fun k => take k current) (reverse (seq 0 (S (length current)))).

Section Notebook.
(** [Path.exists], [Path.resolve], [Path.cwd()] and [str(path)]: the file
    system, an input of the model. *)
Variable path_exists : path -> bool.
Variable resolve : path -> path.
Variable cwd : path.
Variable path_str : path -> string.

(** The body of the loop of [find_project_root]. *)
Definition probe (parent : path) : option path :=
  if path_exists (parent ++ ["procedural-design"; "setup.py"])
  then Some (parent ++ ["procedural-design"])
  else if path_exists (parent ++ ["procedural-design"; "src"])
  then Some (parent ++ ["procedural-design"])
  else if path_exists (parent ++ ["setup.py"])
          && path_exists (parent ++ ["src"])
  then Some parent
  else if String.eqb (path_name parent) "procedural-design"
          && path_exists (parent ++ ["src"])
  then Some parent
  else None.

Fixpoint first_probe (parents : list path) : option path :=
  match parents with
  | [] => None
  | parent :: rest =>
      match probe parent with
      | Some root => Some root
      | None => first_probe rest
      end
  end.

(** [None] stands for the [RuntimeError] at the end of the function. *)
Definition find_project_root (start_path : option path) : option path :=
  let start_path := default cwd start_path in
  let current := resolve start_path in
  first_probe (ancestors current).

(** [setup_notebook_paths], on the list [sys.path]: the returned root and
    the new [sys.path], or [None] for the [RuntimeError]. *)
Definition setup_notebook_paths (project_root : option path) (sys_path : list string)
    : option (path * list string) :=
  match (match project_root with
         | None => find_project_root None
         | Some p => Some (resolve p)
         end) with
  | None => None
  | Some project_root =>
      let project_root_str := path_str project_root in
      if bool_decide (project_root_str ∈ sys_path)
      then Some (project_root, sys_path)
      else Some (project_root, project_root_str :: sys_path)
  end.
End Notebook.

(** ** Further sample data *)


(** Face normals from a table, and a cosine that answers [1 / 2]. *)
Definition table_overhang (normals : list vec3) : OverhangKernel := {|
  face_normals := fun _ => normals;
  cos_deg := fun _ => (1 # 2)%Q
|}.

(** A 2 x 2 pattern. *)
Definition checker : ndarray2 :=
  mk_ndarray2 2 2 (fun a b => if (a + b) mod 2 =? 0 then 1%Q else 0%Q).

(** A file system with [/home/u/procedural-design/src] and nothing else
    of interest. *)
Definition sample_fs (p : list string) : bool :=
  bool_decide (p = ["home"; "u"; "procedural-design"; "src"]).

(** * Properties *)

(** ** Boundary masks *)

Lemma Qle_bool_proper a b a' b' :
  (a == a')%Q -> (b == b')%Q -> Qle_bool a b = Qle_bool a' b'.
Proof.
  intros Ha Hb.
  destruct (Qle_bool a b) eqn:E1, (Qle_bool a' b') eqn:E2; try reflexivity.
  - apply Qle_bool_iff in E1. rewrite Ha, Hb in E1.
    apply Qle_bool_iff in E1. congruence.
  - apply Qle_bool_iff in E2. rewrite <- Ha, <- Hb in E2.
    apply Qle_bool_iff in E2. congruence.
Qed.

Lemma sqrt_le_proper s b b' : (b == b')%Q -> sqrt_le s b = sqrt_le s b'.
Proof.
  intros Hb. unfold sqrt_le.
  rewrite (Qle_bool_proper 0 b 0 b'), (Qle_bool_proper s (b * b) s (b' * b'));
    first [reflexivity | assumption | idtac].
  rewrite Hb. reflexivity.
Qed.

(** With zero taper the radius is the same at every height. *)
Lemma vase_cell_taper0 n r i j k :
  vase_cell n r 0 i j k =
  sqrt_le (linspace n i * linspace n i + linspace n j * linspace n j)%Q r.
Proof.
  unfold vase_cell. apply sqrt_le_proper. ring.
Qed.

(** C3, as stated, fails: [make_cylinder_mask(2, 0.7)] is the tuple
    [(mask, Z_norm)], not the array [make_vase_mask(2, 0.7, taper=0)[0]]. *)
Lemma make_cylinder_mask_is_not_the_mask :
  make_cylinder_mask 2 (7 # 10) <> (make_vase_mask 2 (7 # 10) 0 ≫= tuple_get 0).
Proof.
  unfold make_cylinder_mask, make_vase_mask. simpl. discriminate.
Qed.

(** C3, amended: [make_cylinder_mask(n, r)] is the whole tuple
    [make_vase_mask(n, r, taper=0)], so the two agree on component 0 (the
    mask) and on component 1 ([Z_norm]); for [n >= 0] the mask is the
    [n x n x n] array whose cell [(i, j, k)] tells whether the planar
    radius is at most [r], and a negative [n] raises [ValueError]. *)
Theorem make_cylinder_mask_is_vase_taper0 (n : Z) (r : Q) :
  make_cylinder_mask n r = make_vase_mask n r 0 /\
  (make_cylinder_mask n r ≫= tuple_get 0) = (make_vase_mask n r 0 ≫= tuple_get 0) /\
  (make_cylinder_mask n r ≫= tuple_get 1) = (make_vase_mask n r 0 ≫= tuple_get 1) /\
  match make_cylinder_mask n r ≫= tuple_get 0 with
  | Ok (PyBoolArray mask) =>
      0 <= n /\ shape0 mask = n /\ shape1 mask = n /\ shape2 mask = n /\
      forall i j k,
        item mask i j k =
        sqrt_le (linspace n i * linspace n i + linspace n j * linspace n j)%Q r
  | Ok _ => False
  | Raise e => n < 0 /\ e = ValueError
  end.
Proof.
  split; [reflexivity |]. split; [reflexivity |]. split; [reflexivity |].
  unfold make_cylinder_mask, make_vase_mask.
  destruct (n <? 0) eqn:Hn; simpl.
  - apply Z.ltb_lt in Hn. auto.
  - apply Z.ltb_ge in Hn. repeat split; try assumption.
    intros i j k. apply vase_cell_taper0.
Qed.

(** ** Arrays and the store *)

Lemma elem_of_ndindex d0 d1 d2 i j k :
  (i, j, k) ∈ ndindex d0 d1 d2 <-> 0 <= i < d0 /\ 0 <= j < d1 /\ 0 <= k < d2.
Proof.
  unfold ndindex. rewrite list_elem_of_bind. split.
  - intros (i' & Hin & Hi). apply list_elem_of_bind in Hin as (j' & Hin & Hj).
    apply list_elem_of_bind in Hin as (k' & Hin & Hk).
    apply list_elem_of_singleton in Hin. inversion Hin; subst.
    apply elem_of_seqZ in Hi, Hj, Hk. lia.
  - intros (Hi & Hj & Hk). exists i. split; [| apply elem_of_seqZ; lia].
    apply list_elem_of_bind. exists j. split; [| apply elem_of_seqZ; lia].
    apply list_elem_of_bind. exists k. split; [| apply elem_of_seqZ; lia].
    apply list_elem_of_singleton. reflexivity.
Qed.

Lemma elem_of_where_T mask p : p ∈ where_T mask <-> true_cell mask p.
Proof.
  destruct p as [[i j] k]. unfold where_T, true_cell, in_bounds.
  rewrite list_elem_of_filter, elem_of_ndindex. simpl. tauto.
Qed.

Lemma where_T_nil mask : where_T mask = [] <-> no_true_cell mask.
Proof.
  split.
  - intros Hnil i j k Hb. destruct (item mask i j k) eqn:E; [| reflexivity].
    assert (Hin : (i, j, k) ∈ where_T mask) by (apply elem_of_where_T; split; assumption).
    rewrite Hnil in Hin. apply elem_of_nil in Hin. contradiction.
  - intros Hno. apply elem_of_nil_inv. intros [[i j] k] Hin.
    apply elem_of_where_T in Hin as [Hb Ht]. simpl in Ht.
    rewrite (Hno i j k Hb) in Ht. discriminate.
Qed.

Lemma fresh_ref_unused (σ : store) : σ !! fresh (dom σ) = None.
Proof. apply not_elem_of_dom. apply is_fresh. Qed.

Lemma preserves_insert_fresh (σ : store) o : preserves σ (<[fresh (dom σ) := o]> σ).
Proof.
  intros l o' Hl. rewrite lookup_insert_ne; [assumption |].
  intros <-. rewrite fresh_ref_unused in Hl. discriminate.
Qed.

Lemma copy_run (σ : store) l o :
  σ !! l = Some o -> copy l σ = (Ok (fresh (dom σ)), <[fresh (dom σ) := o]> σ).
Proof. intros Hl. unfold copy, bindM, load, new. rewrite Hl. reflexivity. Qed.


Lemma inplace_field_run (σ : store) l a g :
  inplace_field l g (<[l := FieldObj a]> σ) =
  match g a with
  | Ok a' => (Ok (), <[l := FieldObj a']> σ)
  | Raise e => (Raise e, <[l := FieldObj a]> σ)
  end.
Proof.
  unfold inplace_field, bindM, load_field, bindM, load, retM, raiseM.
  rewrite lookup_insert_eq. destruct (g a); [| reflexivity].
  rewrite insert_insert_eq. reflexivity.
Qed.

Lemma inplace_mesh_run (σ : store) l m g :
  inplace_mesh l g (<[l := MeshObj m]> σ) =
  match g m with
  | Ok m' => (Ok (), <[l := MeshObj m']> σ)
  | Raise e => (Raise e, <[l := MeshObj m]> σ)
  end.
Proof.
  unfold inplace_mesh, bindM, load_mesh, bindM, load, retM, raiseM.
  rewrite lookup_insert_eq. destruct (g m); [| reflexivity].
  rewrite insert_insert_eq. reflexivity.
Qed.

Lemma load_mesh_run (σ : store) l m :
  load_mesh l (<[l := MeshObj m]> σ) = (Ok m, <[l := MeshObj m]> σ).
Proof. unfold load_mesh, bindM, load, retM. rewrite lookup_insert_eq. reflexivity. Qed.

(** ** The field carver *)

Section Carver.
Context `{G : Generator}.

(** What a call does on a store that holds the field and the mask: it
    allocates one new array, which is a copy of the field on the
    degenerate paths and the result of the agents' loop otherwise. *)
Lemma carve_run (σ : store) field mask fv mv n_agents agent_steps radius rf seed entropy :
  σ !! field = Some (FieldObj fv) ->
  σ !! mask = Some (MaskObj mv) ->
  carve_tunnels_random_walk field mask n_agents agent_steps radius rf seed entropy σ =
  let f := fresh (dom σ) in
  if (n_agents <=? 0) || (agent_steps <=? 0) || (length (where_T mv) =? 0)%nat
  then (Ok f, <[f := FieldObj fv]> σ)
  else
    match run_agents mv (where_T mv) (shape0 fv) radius rf
            (Z.to_nat agent_steps) (Z.to_nat n_agents) (fv, default_rng seed entropy) with
    | Ok fg => (Ok f, <[f := FieldObj fg.1]> σ)
    | Raise e => (Raise e, <[f := FieldObj fv]> σ)
    end.
Proof.
  intros Hf Hm. unfold carve_tunnels_random_walk.
  destruct ((n_agents <=? 0) || (agent_steps <=? 0)) eqn:Hearly; simpl.
  { apply copy_run. assumption. }
  unfold bindM at 1. unfold load_field at 1. unfold bindM at 1, load at 1.
  rewrite Hf. unfold retM at 1.
  unfold bindM at 1. unfold load_mask at 1. unfold bindM at 1, load at 1.
  rewrite Hm. unfold retM at 1.
  destruct (length (where_T mv) =? 0)%nat eqn:Hlen.
  { apply copy_run. assumption. }
  unfold bindM at 1. rewrite (copy_run _ _ _ Hf).
  unfold bindM at 1. rewrite inplace_field_run.
  destruct (run_agents _ _ _ _ _ _ _ _) as [fg | e]; reflexivity.
Qed.
End Carver.

Lemma eroded_refl f : eroded f f.
Proof.
  split; [repeat split |]. intros i j k H. split; [assumption | apply Qle_refl].
Qed.

Lemma eroded_trans f1 f2 f3 : eroded f1 f2 -> eroded f2 f3 -> eroded f1 f3.
Proof.
  intros [S12 H12] [S23 H23]. split.
  - unfold same_shape in *. intuition congruence.
  - intros i j k H. destruct (H12 i j k H) as [H2 H2'].
    destruct (H23 i j k H2) as [H3 H3'].
    split; [assumption | eapply Qle_trans; eassumption].
Qed.

Section CarverLoop.
Context `{G : Generator}.
Variable mask : ndarray bool.
Variable coords : list index.
Variable n : Z.
Variable radius : Q.
Variable rf : Q.

(** A carving operation keeps the shape; every cell is either kept or
    multiplied by the reduction factor. *)
Lemma carve_cells f p f' :
  carve n radius rf f p = Ok f' ->
  same_shape f' f /\
  forall i j k,
    item f' i j k = item f i j k \/ item f' i j k = (item f i j k * rf)%Q.
Proof.
  destruct p as [[x y] z]. unfold carve.
  destruct (_ && _); [| discriminate].
  intros [= <-]. split; [repeat split |].
  intros i j k. simpl. destruct (_ && _); auto.
Qed.

Hypothesis rf_range : (0 <= rf <= 1)%Q.

Lemma carve_eroded f p f' : carve n radius rf f p = Ok f' -> eroded f f'.
Proof.
  intros H. apply carve_cells in H as [Hs Hc]. split; [assumption |].
  intros i j k Hv. destruct (Hc i j k) as [-> | ->].
  - split; [assumption | apply Qle_refl].
  - destruct rf_range. split; nra.
Qed.

Lemma step_eroded w w' :
  step mask coords n radius rf w = Ok w' -> eroded (w_field w) (w_field w').
Proof.
  unfold step. destruct (carve n radius rf (w_field w) (w_pos w)) as [f |] eqn:Hc;
    [| discriminate].
  apply carve_eroded in Hc. simpl.
  destruct (integers3 (-1) 2 (w_rng w)) as [d g1].
  destruct (getitem mask _) as [inside |]; [| discriminate]. simpl.
  destruct inside; simpl.
  - intros [= <-]. assumption.
  - destruct (pick coords g1) as [[p' g2] |]; [| discriminate]. simpl.
    intros [= <-]. assumption.
Qed.

Lemma run_steps_eroded k w w' :
  run_steps mask coords n radius rf k w = Ok w' -> eroded (w_field w) (w_field w').
Proof.
  revert w. induction k as [| k IH]; intros w; simpl.
  - intros [= <-]. apply eroded_refl.
  - destruct (step mask coords n radius rf w) as [w1 |] eqn:Hs; [| discriminate].
    simpl. intros H. eapply eroded_trans; [eapply step_eroded; eassumption |].
    apply IH. assumption.
Qed.

Lemma run_agent_eroded steps fg fg' :
  run_agent mask coords n radius rf steps fg = Ok fg' -> eroded fg.1 fg'.1.
Proof.
  unfold run_agent, start_agent.
  destruct (pick coords fg.2) as [[p g] |]; [| discriminate]. simpl.
  destruct (run_steps _ _ _ _ _ _ _) as [w' |] eqn:Hr; [| discriminate].
  simpl. intros [= <-]. apply run_steps_eroded in Hr. assumption.
Qed.

Lemma run_agents_eroded steps k fg fg' :
  run_agents mask coords n radius rf steps k fg = Ok fg' -> eroded fg.1 fg'.1.
Proof.
  revert fg. induction k as [| k IH]; intros fg; simpl.
  - intros [= <-]. apply eroded_refl.
  - destruct (run_agent _ _ _ _ _ _ _) as [fg1 |] eqn:Ha; [| discriminate].
    simpl. intros H. eapply eroded_trans; [eapply run_agent_eroded; eassumption |].
    apply IH. assumption.
Qed.
End CarverLoop.

(** ** The walk stays inside the mask *)

Lemma py_int_nonneg q : (0 <= q)%Q -> 0 <= py_int q.
Proof.
  intros H. unfold py_int. apply Z.quot_pos; [| lia].
  unfold Qle in H. simpl in H. lia.
Qed.

Lemma inject_Z_nonneg x : 0 <= x -> (0 <= inject_Z x)%Q.
Proof. intros H. unfold Qle. simpl. lia. Qed.

Lemma axis_index_in_range i len : 0 <= i < len -> axis_index i len = Ok i.
Proof.
  intros H. unfold axis_index.
  destruct (0 <=? i) eqn:E1; [| lia]. destruct (i <? len) eqn:E2; [| lia].
  reflexivity.
Qed.

Lemma getitem_in_bounds {A} (a : ndarray A) i j k :
  in_bounds a (i, j, k) -> getitem a (i, j, k) = Ok (item a i j k).
Proof.
  intros (Hi & Hj & Hk). unfold getitem.
  rewrite !axis_index_in_range by assumption. reflexivity.
Qed.

Lemma clip_range v hi : 0 <= hi -> 0 <= clip v 0 hi <= hi.
Proof. unfold clip. lia. Qed.

Lemma run_steps_snoc `{G : Generator} mask coords n radius rf k w :
  run_steps mask coords n radius rf (S k) w =
  run_steps mask coords n radius rf k w ≫= step mask coords n radius rf.
Proof.
  revert w. induction k as [| k IH]; intros w.
  - simpl. destruct (step mask coords n radius rf w); reflexivity.
  - change (step mask coords n radius rf w ≫= run_steps mask coords n radius rf (S k) =
            (step mask coords n radius rf w ≫= run_steps mask coords n radius rf k)
              ≫= step mask coords n radius rf).
    destruct (step mask coords n radius rf w) as [w1 |]; [exact (IH w1) | reflexivity].
Qed.

Lemma run_agents_snoc `{G : Generator} mask coords n radius rf steps k fg :
  run_agents mask coords n radius rf steps (S k) fg =
  run_agents mask coords n radius rf steps k fg ≫= run_agent mask coords n radius rf steps.
Proof.
  revert fg. induction k as [| k IH]; intros fg.
  - simpl. destruct (run_agent _ _ _ _ _ _ fg); reflexivity.
  - change (run_agent mask coords n radius rf steps fg
              ≫= run_agents mask coords n radius rf steps (S k) =
            (run_agent mask coords n radius rf steps fg
              ≫= run_agents mask coords n radius rf steps k)
              ≫= run_agent mask coords n radius rf steps).
    destruct (run_agent mask coords n radius rf steps fg) as [fg1 |];
      [exact (IH fg1) | reflexivity].
Qed.

Section WellShaped.
Context `{G : Generator}.
Variable mask : ndarray bool.
Variable n : Z.
Variable radius : Q.
Variable rf : Q.

Hypothesis G_ok : generator_ok G.
Hypothesis mask_shape : shape0 mask = n /\ shape1 mask = n /\ shape2 mask = n.
Hypothesis radius_nonneg : (0 <= radius)%Q.
Hypothesis some_true_cell : where_T mask <> [].

Local Abbreviation coords := (where_T mask).

Lemma carve_slice_view x :
  0 <= x < n ->
  range_len (carve_slice n radius x) =
  range_len (slice_indices (carve_slice n radius x).1 (carve_slice n radius x).2 n).
Proof.
  intros Hx. unfold carve_slice, slice_indices, range_len. simpl.
  assert (H2 : 0 <= py_int (inject_Z x + radius + 1)).
  { apply py_int_nonneg. pose proof (inject_Z_nonneg x ltac:(lia)). lra. }
  set (t1 := py_int (inject_Z x - radius)) in *.
  set (t2 := py_int (inject_Z x + radius + 1)) in *.
  destruct (Z.max 0 t1 <? 0) eqn:E1; [lia |].
  destruct (Z.min n t2 <? 0) eqn:E2; [lia |].
  lia.
Qed.

Lemma carve_ok f p :
  shape0 f = n /\ shape1 f = n /\ shape2 f = n ->
  true_cell mask p ->
  exists f', carve n radius rf f p = Ok f' /\
             (shape0 f' = n /\ shape1 f' = n /\ shape2 f' = n).
Proof.
  intros (S0 & S1 & S2) [Hb _]. destruct p as [[x y] z].
  destruct mask_shape as (M0 & M1 & M2).
  unfold in_bounds in Hb. rewrite M0, M1, M2 in Hb. destruct Hb as (Hx & Hy & Hz).
  unfold carve. rewrite S0, S1, S2.
  rewrite <- !carve_slice_view by assumption.
  rewrite !Z.eqb_refl. simpl. eexists. split; [reflexivity |]. simpl. auto.
Qed.

Lemma pick_ok g :
  exists p, pick coords g = Ok (p, (integers 0 (Z.of_nat (length coords)) g).2) /\
            coords !! Z.to_nat (integers 0 (Z.of_nat (length coords)) g).1 = Some p /\
            true_cell mask p.
Proof.
  unfold pick. destruct G_ok as [Hint _].
  assert (Hlen : 0 < Z.of_nat (length coords)).
  { destruct (where_T mask); [contradiction | simpl; lia]. }
  specialize (Hint 0 _ g Hlen).
  destruct (integers 0 (Z.of_nat (length coords)) g) as [i g'] eqn:E. simpl in *.
  rewrite axis_index_in_range by assumption. simpl.
  destruct (coords !! Z.to_nat i) as [p |] eqn:Hp.
  - exists p. split; [reflexivity |]. split; [reflexivity |].
    apply elem_of_where_T. eapply list_elem_of_lookup_2. eassumption.
  - apply lookup_ge_None in Hp. lia.
Qed.

Lemma advance_in_bounds p d : true_cell mask p -> in_bounds mask (advance n p d).
Proof.
  intros [Hb _]. destruct p as [[x y] z], d as [[dx dy] dz].
  destruct mask_shape as (M0 & M1 & M2).
  unfold in_bounds in *. rewrite M0, M1, M2 in *. simpl.
  pose proof (clip_range (x + dx) (n - 1)).
  pose proof (clip_range (y + dy) (n - 1)).
  pose proof (clip_range (z + dz) (n - 1)). lia.
Qed.

(** One iteration from a good state succeeds and ends in a good state:
    on the advanced position when that is a True cell, and otherwise on
    the True cell that a new draw selects. *)
Lemma step_ok w :
  good mask n w ->
  exists w', step mask coords n radius rf w = Ok w' /\ good mask n w' /\
    let d := integers3 (-1) 2 (w_rng w) in
    let p := advance n (w_pos w) d.1 in
    in_bounds mask p /\
    if item mask p.1.1 p.1.2 p.2 then w_pos w' = p
    else coords !! Z.to_nat (integers 0 (Z.of_nat (length coords)) d.2).1
         = Some (w_pos w').
Proof.
  intros [Hs Hp]. unfold step.
  destruct (carve_ok (w_field w) (w_pos w) Hs Hp) as (f & -> & Hf). simpl.
  destruct (integers3 (-1) 2 (w_rng w)) as [d g1] eqn:Ed. simpl.
  pose proof (advance_in_bounds (w_pos w) d Hp) as Hadv.
  destruct (advance n (w_pos w) d) as [[x y] z] eqn:Ea.
  rewrite getitem_in_bounds by assumption. simpl.
  destruct (item mask x y z) eqn:Hitem; simpl.
  - eexists. split; [reflexivity |]. split; [| split; [assumption | reflexivity]].
    split; [assumption |]. split; assumption.
  - destruct (pick_ok g1) as (p' & -> & Hlook & Htrue). simpl.
    eexists. split; [reflexivity |]. split; [| split; assumption].
    split; assumption.
Qed.

Lemma run_steps_ok k w :
  good mask n w -> exists w', run_steps mask coords n radius rf k w = Ok w' /\ good mask n w'.
Proof.
  revert w. induction k as [| k IH]; intros w Hw; simpl.
  - eauto.
  - destruct (step_ok w Hw) as (w1 & -> & Hw1 & _). simpl. apply IH. assumption.
Qed.

Lemma start_agent_ok fg :
  shape0 fg.1 = n /\ shape1 fg.1 = n /\ shape2 fg.1 = n ->
  exists w, start_agent coords fg = Ok w /\ good mask n w.
Proof.
  intros Hs. unfold start_agent.
  destruct (pick_ok fg.2) as (p & -> & _ & Hp). simpl.
  eexists. split; [reflexivity |]. split; assumption.
Qed.

Lemma run_agent_ok steps fg :
  shape0 fg.1 = n /\ shape1 fg.1 = n /\ shape2 fg.1 = n ->
  exists fg', run_agent mask coords n radius rf steps fg = Ok fg' /\
              (shape0 fg'.1 = n /\ shape1 fg'.1 = n /\ shape2 fg'.1 = n).
Proof.
  intros Hs. unfold run_agent.
  destruct (start_agent_ok fg Hs) as (w & -> & Hw). simpl.
  destruct (run_steps_ok steps w Hw) as (w' & -> & [Hs' _]). simpl.
  eexists. split; [reflexivity |]. assumption.
Qed.

Lemma run_agents_ok steps k fg :
  shape0 fg.1 = n /\ shape1 fg.1 = n /\ shape2 fg.1 = n ->
  exists fg', run_agents mask coords n radius rf steps k fg = Ok fg' /\
              (shape0 fg'.1 = n /\ shape1 fg'.1 = n /\ shape2 fg'.1 = n).
Proof.
  revert fg. induction k as [| k IH]; intros fg Hs; simpl.
  - eauto.
  - destruct (run_agent_ok steps fg Hs) as (fg1 & -> & Hs1). simpl.
    apply IH. assumption.
Qed.

Lemma iteration_state_ok steps a s fg :
  shape0 fg.1 = n /\ shape1 fg.1 = n /\ shape2 fg.1 = n ->
  exists w, iteration_state mask coords n radius rf steps a s fg = Ok w /\ good mask n w.
Proof.
  intros Hs. unfold iteration_state.
  destruct (run_agents_ok steps a fg Hs) as (fg1 & -> & Hs1). simpl.
  destruct (start_agent_ok fg1 Hs1) as (w & -> & Hw). simpl.
  apply run_steps_ok. assumption.
Qed.
End WellShaped.

(** The sample generator draws inside the interval. *)
Lemma lcg_ok : generator_ok lcg.
Proof.
  assert (Hd : forall lo hi s, lo < hi -> lo <= (lcg_draw lo hi s).1 < hi).
  { intros lo hi s H. unfold lcg_draw. simpl.
    pose proof (Z.mod_pos_bound (s / 65536) (hi - lo) ltac:(lia)). lia. }
  split.
  - exact Hd.
  - intros lo hi s H. simpl.
    pose proof (Hd lo hi s H) as H1.
    destruct (lcg_draw lo hi s) as [a s1].
    pose proof (Hd lo hi s1 H) as H2.
    destruct (lcg_draw lo hi s1) as [b s2].
    pose proof (Hd lo hi s2 H) as H3.
    destruct (lcg_draw lo hi s2) as [c s3]. simpl in *. auto.
Qed.

Section CarverTheorems.
Context `{G : Generator}.


(** C5: on a non-negative field and with [0 <= reduction_factor <= 1],
    every sample of a returned field is at most the sample of the input
    at the same index; and on an [n x n x n] field with a mask of the
    same shape and a non-negative radius the call does return. *)
Theorem carve_never_increases (σ : store) field mask fv mv
    n_agents agent_steps radius rf seed entropy :
  σ !! field = Some (FieldObj fv) ->
  σ !! mask = Some (MaskObj mv) ->
  nonneg fv ->
  (0 <= rf <= 1)%Q ->
  (forall f σ',
     carve_tunnels_random_walk field mask n_agents agent_steps radius rf seed entropy σ
       = (Ok f, σ') ->
     exists out, σ' !! f = Some (FieldObj out) /\ same_shape out fv /\
       forall i j k, in_bounds fv (i, j, k) -> (item out i j k <= item fv i j k)%Q) /\
  (generator_ok G -> well_shaped fv mv -> (0 <= radius)%Q ->
   exists f σ',
     carve_tunnels_random_walk field mask n_agents agent_steps radius rf seed entropy σ
       = (Ok f, σ')).
Proof.
  intros Hf Hm Hnn Hrf. rewrite (carve_run σ field mask fv mv) by assumption.
  cbv zeta. split.
  - intros f σ'.
    destruct (_ || _ || _).
    + intros [= <- <-]. exists fv. split; [apply lookup_insert_eq |].
      split; [repeat split |]. intros. apply Qle_refl.
    + destruct (run_agents _ _ _ _ _ _ _ _) as [fg |] eqn:Hr; [| discriminate].
      intros [= <- <-]. exists fg.1. split; [apply lookup_insert_eq |].
      apply run_agents_eroded in Hr; [| assumption]. destruct Hr as [Hs Hc].
      split; [assumption |]. intros i j k Hb. apply Hc. apply Hnn. assumption.
  - intros Gok [Hcub Hsh] Hrad.
    destruct (_ || _ || _) eqn:Hc; [eauto |].
    apply orb_false_iff in Hc as [_ Hlen]. apply Nat.eqb_neq in Hlen.
    assert (Hne : where_T mv <> []) by (intros E; rewrite E in Hlen; simpl in Hlen; lia).
    destruct Hcub as [C1 C2]. destruct Hsh as (S0 & S1 & S2).
    destruct (run_agents_ok mv (shape0 fv) radius rf Gok
                ltac:(repeat split; congruence) Hrad Hne
                (Z.to_nat agent_steps) (Z.to_nat n_agents) (fv, default_rng seed entropy)
                ltac:(simpl; auto))
      as (fg & -> & _).
    eauto.
Qed.

(** C7: with a seed, the outcome of a call depends only on the field,
    the mask and the parameters: two calls, in any two stores and with
    any entropy, both raise the same exception or return arrays with
    identical samples. *)
Theorem carve_seeded_deterministic (σ1 σ2 : store) field1 mask1 field2 mask2 fv mv
    n_agents agent_steps radius rf seed entropy1 entropy2 :
  σ1 !! field1 = Some (FieldObj fv) -> σ1 !! mask1 = Some (MaskObj mv) ->
  σ2 !! field2 = Some (FieldObj fv) -> σ2 !! mask2 = Some (MaskObj mv) ->
  let run1 := carve_tunnels_random_walk field1 mask1 n_agents agent_steps radius rf
                (Some seed) entropy1 σ1 in
  let run2 := carve_tunnels_random_walk field2 mask2 n_agents agent_steps radius rf
                (Some seed) entropy2 σ2 in
  match run1.1, run2.1 with
  | Ok f1, Ok f2 =>
      exists out, run1.2 !! f1 = Some (FieldObj out) /\ run2.2 !! f2 = Some (FieldObj out)
  | Raise e1, Raise e2 => e1 = e2
  | _, _ => False
  end.
Proof.
  intros Hf1 Hm1 Hf2 Hm2.
  rewrite (carve_run σ1 field1 mask1 fv mv), (carve_run σ2 field2 mask2 fv mv)
    by assumption.
  cbv zeta. simpl default_rng.
  destruct (_ || _ || _); simpl.
  - exists fv. split; apply lookup_insert_eq.
  - destruct (run_agents _ _ _ _ _ _ _ _) as [fg |]; simpl; [| reflexivity].
    exists fg.1. split; apply lookup_insert_eq.
Qed.

End CarverTheorems.


(** The statement of C5 at a field of ones, one agent and two steps. *)
Lemma carve_never_increases_witness :
  let σ := sample_store (ones 3) (full_mask 3) in
  let run := carve_tunnels_random_walk (H := lcg) 0%nat 1%nat 1 2 1 (3 # 10)
               (Some 42%N) 0%N σ in
  exists f out, run.1 = Ok f /\ run.2 !! f = Some (FieldObj out) /\
    same_shape out (ones 3) /\
    forall i j k, in_bounds (ones 3) (i, j, k) -> (item out i j k <= 1)%Q.
Proof.
  cbv zeta.
  destruct (carve_never_increases (G := lcg) (sample_store (ones 3) (full_mask 3))
              0%nat 1%nat (ones 3) (full_mask 3) 1 2 1 (3 # 10) (Some 42%N) 0%N)
    as [Hle Hret].
  - reflexivity.
  - reflexivity.
  - intros i j k _. simpl. discriminate.
  - split; discriminate.
  - destruct Hret as (f & σ' & Hrun).
    + exact lcg_ok.
    + repeat split.
    + discriminate.
    + destruct (Hle f σ' Hrun) as (out & Hout & Hshape & Hcells).
      exists f, out. rewrite Hrun. simpl. auto.
Defined.

(** The statement of C7 at two stores and two entropies. *)
Lemma carve_seeded_deterministic_witness :
  let σ1 := sample_store (ones 3) (full_mask 3) in
  let σ2 := <[7%nat := MaskObj (full_mask 3)]> (<[4%nat := FieldObj (ones 3)]> ∅) in
  let run1 := carve_tunnels_random_walk (H := lcg) 0%nat 1%nat 1 2 1 (3 # 10)
                (Some 42%N) 0%N σ1 in
  let run2 := carve_tunnels_random_walk (H := lcg) 4%nat 7%nat 1 2 1 (3 # 10)
                (Some 42%N) 9%N σ2 in
  match run1.1, run2.1 with
  | Ok f1, Ok f2 =>
      exists out, run1.2 !! f1 = Some (FieldObj out) /\ run2.2 !! f2 = Some (FieldObj out)
  | Raise e1, Raise e2 => e1 = e2
  | _, _ => False
  end.
Proof.
  apply (carve_seeded_deterministic (G := lcg)
           (sample_store (ones 3) (full_mask 3))
           (<[7%nat := MaskObj (full_mask 3)]> (<[4%nat := FieldObj (ones 3)]> ∅))
           0%nat 1%nat 4%nat 7%nat (ones 3) (full_mask 3) 1 2 1 (3 # 10) 42%N 0%N 9%N);
    reflexivity.
Defined.

Lemma iteration_state_S `{G : Generator} mask coords n radius rf steps a s fg :
  iteration_state mask coords n radius rf steps a (S s) fg =
  iteration_state mask coords n radius rf steps a s fg ≫= step mask coords n radius rf.
Proof.
  unfold iteration_state.
  destruct (run_agents mask coords n radius rf steps a fg) as [fg1 |]; [| reflexivity].
  change (start_agent coords fg1 ≫= run_steps mask coords n radius rf (S s) =
          (start_agent coords fg1 ≫= run_steps mask coords n radius rf s)
            ≫= step mask coords n radius rf).
  destruct (start_agent coords fg1) as [w0 |]; [| reflexivity].
  exact (run_steps_snoc mask coords n radius rf s w0).
Qed.

Lemma run_agents_last `{G : Generator} mask coords n radius rf steps a fg :
  run_agents mask coords n radius rf steps (S a) fg =
  iteration_state mask coords n radius rf steps a steps fg
    ≫= (fun w => Ok (w_field w, w_rng w)).
Proof.
  rewrite run_agents_snoc. unfold iteration_state.
  destruct (run_agents mask coords n radius rf steps a fg) as [fg1 |]; [| reflexivity].
  change (run_agent mask coords n radius rf steps fg1 =
          (start_agent coords fg1 ≫= run_steps mask coords n radius rf steps)
            ≫= (fun w => Ok (w_field w, w_rng w))).
  unfold run_agent.
  destruct (start_agent coords fg1) as [w0 |]; reflexivity.
Qed.

Lemma pick_elem_of `{G : Generator} coords g p g' :
  pick coords g = Ok (p, g') -> p ∈ coords.
Proof.
  unfold pick. destruct (integers 0 _ g) as [i g1].
  destruct (axis_index i _) as [i' |]; [| discriminate]. simpl.
  destruct (coords !! Z.to_nat i') as [q |] eqn:Hq; [| discriminate].
  intros [= <- <-]. eapply list_elem_of_lookup_2. eassumption.
Qed.

Lemma getitem_true_cell mask p : true_cell mask p -> getitem mask p = Ok true.
Proof.
  destruct p as [[i j] k]. intros [Hb Ht]. rewrite getitem_in_bounds by assumption.
  simpl in Ht. rewrite Ht. reflexivity.
Qed.

(** Whatever the shapes, a state of the loop has the agent on a cell
    where [mask[x, y, z]] is True. *)
Lemma start_agent_on_mask `{G : Generator} mask fg w :
  start_agent (where_T mask) fg = Ok w -> getitem mask (w_pos w) = Ok true.
Proof.
  unfold start_agent. destruct (pick _ fg.2) as [[p g] |] eqn:Hp; [| discriminate].
  simpl. intros [= <-]. simpl. apply getitem_true_cell, elem_of_where_T.
  eapply pick_elem_of. eassumption.
Qed.

Lemma step_on_mask `{G : Generator} mask n radius rf w w' :
  step mask (where_T mask) n radius rf w = Ok w' -> getitem mask (w_pos w') = Ok true.
Proof.
  unfold step. destruct (carve _ _ _ _ _) as [f |]; [| discriminate]. simpl.
  destruct (integers3 (-1) 2 (w_rng w)) as [d g1].
  destruct (getitem mask (advance n (w_pos w) d)) as [inside |] eqn:Hg; [| discriminate].
  simpl. destruct inside; simpl.
  - intros [= <-]. exact Hg.
  - destruct (pick _ g1) as [[p g2] |] eqn:Hp; [| discriminate]. simpl.
    intros [= <-]. simpl. apply getitem_true_cell, elem_of_where_T.
    eapply pick_elem_of. eassumption.
Qed.

Lemma iteration_state_on_mask `{G : Generator} mask n radius rf steps a s fg w :
  iteration_state mask (where_T mask) n radius rf steps a s fg = Ok w ->
  getitem mask (w_pos w) = Ok true.
Proof.
  destruct s as [| s].
  - unfold iteration_state.
    destruct (run_agents _ _ _ _ _ _ a fg) as [fg1 |]; [| discriminate].
    simpl. destruct (start_agent _ fg1) as [w0 |] eqn:H0; [| discriminate].
    simpl. intros [= <-]. eapply start_agent_on_mask. eassumption.
  - rewrite iteration_state_S.
    destruct (iteration_state _ _ _ _ _ _ a s fg) as [w0 |]; [| discriminate].
    simpl. apply step_on_mask.
Qed.

Section RestartPolicy.
Context `{G : Generator}.

(** C6: whenever the loop reaches the start of an iteration, the agent
    is on a cell where the mask is True.  On an [n x n x n] field with a
    mask of the same shape that has a True cell, and with a non-negative
    radius, every carving iteration [s < agent_steps] of every agent
    [a < n_agents] is reached, starts on a True cell of the mask and is
    followed by the state of iteration [s + 1]: on the advanced position
    when that is a True cell, and otherwise on the True cell
    [coords[rng.integers(0, len(coords))]] of a new draw.  The call
    returns the working copy as it is after iteration [agent_steps] of
    the last agent, so no agent stops early. *)
Theorem carve_agents_stay_in_mask (σ : store) field mask fv mv
    n_agents agent_steps radius rf seed entropy :
  σ !! field = Some (FieldObj fv) ->
  σ !! mask = Some (MaskObj mv) ->
  let coords := where_T mv in
  let n := shape0 fv in
  let state a s :=
    iteration_state mv coords n radius rf (Z.to_nat agent_steps) a s
      (fv, default_rng seed entropy) in
  (forall a s w, state a s = Ok w -> getitem mv (w_pos w) = Ok true) /\
  (generator_ok G ->
  well_shaped fv mv ->
  0 < n_agents -> 0 < agent_steps -> (0 <= radius)%Q ->
  ~ no_true_cell mv ->
  (forall a s, (a < Z.to_nat n_agents)%nat -> (s < Z.to_nat agent_steps)%nat ->
     exists w w',
       state a s = Ok w /\ true_cell mv (w_pos w) /\
       step mv coords n radius rf w = Ok w' /\ state a (S s) = Ok w' /\
       true_cell mv (w_pos w') /\
       let d := integers3 (-1) 2 (w_rng w) in
       let p := advance n (w_pos w) d.1 in
       in_bounds mv p /\
       if item mv p.1.1 p.1.2 p.2 then w_pos w' = p
       else coords !! Z.to_nat (integers 0 (Z.of_nat (length coords)) d.2).1
            = Some (w_pos w')) /\
  exists w_last,
    state (Z.to_nat n_agents - 1)%nat (Z.to_nat agent_steps) = Ok w_last /\
    carve_tunnels_random_walk field mask n_agents agent_steps radius rf seed entropy σ
      = (Ok (fresh (dom σ)), <[fresh (dom σ) := FieldObj (w_field w_last)]> σ)).
Proof.
  intros Hf Hm coords n state. subst coords n state. cbv beta.
  split; [intros a s w; apply iteration_state_on_mask |].
  intros Gok [[C1 C2] (S0 & S1 & S2)] Hna Hst Hrad Hsome.
  assert (Hne : where_T mv <> []).
  { intros E. apply Hsome. apply where_T_nil. assumption. }
  assert (Hmask : shape0 mv = shape0 fv /\ shape1 mv = shape0 fv /\ shape2 mv = shape0 fv)
    by (repeat split; congruence).
  assert (Hfv : shape0 (fv, default_rng seed entropy).1 = shape0 fv /\
                shape1 (fv, default_rng seed entropy).1 = shape0 fv /\
                shape2 (fv, default_rng seed entropy).1 = shape0 fv)
    by (simpl; auto).
  split.
  - intros a s _ _.
    destruct (iteration_state_ok mv (shape0 fv) radius rf Gok Hmask Hrad Hne
                (Z.to_nat agent_steps) a s _ Hfv) as (w & Hw & Hgood).
    destruct (step_ok mv (shape0 fv) radius rf Gok Hmask Hrad Hne w Hgood)
      as (w' & Hstep & Hgood' & Hpos).
    exists w, w'. split; [exact Hw |]. split; [apply Hgood |].
    split; [exact Hstep |]. split; [| split; [apply Hgood' | exact Hpos]].
    rewrite iteration_state_S, Hw. exact Hstep.
  - destruct (iteration_state_ok mv (shape0 fv) radius rf Gok Hmask Hrad Hne
                (Z.to_nat agent_steps) (Z.to_nat n_agents - 1) (Z.to_nat agent_steps)
                _ Hfv) as (w & Hw & _).
    exists w. split; [exact Hw |].
    rewrite (carve_run σ field mask fv mv) by assumption. cbv zeta.
    assert (Hc : (n_agents <=? 0) || (agent_steps <=? 0)
                 || (length (where_T mv) =? 0)%nat = false).
    { apply orb_false_iff. split; [apply orb_false_iff; split; lia |].
      apply Nat.eqb_neq. destruct (where_T mv); [contradiction | simpl; lia]. }
    rewrite Hc.
    replace (Z.to_nat n_agents) with (S (Z.to_nat n_agents - 1)) at 1 by lia.
    rewrite run_agents_last, Hw. reflexivity.
Qed.
End RestartPolicy.

(** The statement of C6 at a field of ones, one agent and two steps. *)
Lemma carve_agents_stay_in_mask_witness :
  let σ := sample_store (ones 3) (full_mask 3) in
  exists w_last,
    iteration_state (G := lcg) (full_mask 3) (where_T (full_mask 3)) 3 1 (3 # 10) 2 0 2
      (ones 3, default_rng (Some 42%N) 0%N) = Ok w_last /\
    true_cell (full_mask 3) (w_pos w_last) /\
    carve_tunnels_random_walk (H := lcg) 0%nat 1%nat 1 2 1 (3 # 10) (Some 42%N) 0%N σ
      = (Ok (fresh (dom σ)), <[fresh (dom σ) := FieldObj (w_field w_last)]> σ).
Proof.
  cbv zeta.
  destruct (carve_agents_stay_in_mask (G := lcg) (sample_store (ones 3) (full_mask 3))
              0%nat 1%nat (ones 3) (full_mask 3) 1 2 1 (3 # 10) (Some 42%N) 0%N)
    as [Hon Hall].
  - reflexivity.
  - reflexivity.
  - destruct Hall as [Hsteps (w_last & Hlast & Hrun)].
    + exact lcg_ok.
    + repeat split.
    + lia.
    + lia.
    + discriminate.
    + intros Hno. specialize (Hno 0 0 0 ltac:(simpl; lia)). discriminate.
    + exists w_last. split; [exact Hlast |]. split; [| exact Hrun].
      destruct (Hsteps 0%nat 1%nat ltac:(simpl; lia) ltac:(simpl; lia))
        as (w & w' & _ & _ & _ & Hnext & Htrue & _).
      change (Z.to_nat 2) with 2%nat in Hnext, Hlast. change (Z.to_nat 1 - 1)%nat with 0%nat in Hlast.
      rewrite Hlast in Hnext. injection Hnext as <-. exact Htrue.
Defined.

(** *** The carver on small inputs *)


(** Without a seed the result depends on the entropy the generator is
    seeded from. *)
Example carve_unseeded_depends_on_entropy :
  let run entropy :=
    carve_tunnels_random_walk (H := lcg) 0%nat 1%nat 1 1 1 (3 # 10) None entropy
      (sample_store (ones 3) (full_mask 3)) in
  match (run 0%N).2 !! 2%nat, (run 327680%N).2 !! 2%nat with
  | Some (FieldObj a), Some (FieldObj b) =>
      item a 0 0 0 = (3 # 10)%Q /\ item b 0 0 0 = 1%Q
  | _, _ => False
  end.
Proof. vm_compute. split; reflexivity. Qed.

(** A negative radius makes the slice and the grid disagree: the carver
    raises [IndexError] on the first carving operation. *)
Example carve_negative_radius :
  (carve_tunnels_random_walk (H := lcg) 0%nat 1%nat 1 1 (-3) (3 # 10)
     (Some 42%N) 0%N (sample_store (ones 8) (full_mask 8))).1 = Raise IndexError.
Proof. vm_compute. reflexivity. Qed.

(** ** Mesh validation *)

Lemma vec3_eqb_refl v : vec3_eqb v v = true.
Proof.
  unfold vec3_eqb. rewrite !andb_true_iff. repeat split; apply Qeq_bool_iff; reflexivity.
Qed.

Lemma vec3_eqb_trans u v w :
  vec3_eqb u v = true -> vec3_eqb v w = true -> vec3_eqb u w = true.
Proof.
  unfold vec3_eqb. rewrite !andb_true_iff, !Qeq_bool_iff.
  intros ((H1 & H2) & H3) ((H4 & H5) & H6).
  repeat split; etransitivity; eassumption.
Qed.

Lemma existsb_elem_of {A} (f : A -> bool) l :
  existsb f l = true <-> exists x, x ∈ l /\ f x = true.
Proof.
  rewrite existsb_exists. split; intros (x & H1 & H2); exists x; split; try assumption;
    apply list_elem_of_In; assumption.
Qed.

Lemma unique_rows_length vs : (length (unique_rows vs) <= length vs)%nat.
Proof.
  induction vs as [| v vs IH]; simpl; [lia |].
  destruct (existsb (vec3_eqb v) vs); simpl; lia.
Qed.

(** The rows kept are rows of the input, and every input row has an equal
    row among them. *)
Lemma unique_rows_sound vs u : u ∈ unique_rows vs -> u ∈ vs.
Proof.
  induction vs as [| v vs IH]; simpl; [auto |].
  destruct (existsb (vec3_eqb v) vs).
  - intros H. right. auto.
  - intros H. apply elem_of_cons in H as [-> | H]; [left | right; auto].
Qed.

Lemma unique_rows_complete vs v :
  v ∈ vs -> exists u, u ∈ unique_rows vs /\ vec3_eqb v u = true.
Proof.
  revert v. induction vs as [| x vs IH]; intros v Hin; [inversion Hin |].
  assert (Htail : forall y, y ∈ vs ->
            exists u, u ∈ unique_rows (x :: vs) /\ vec3_eqb y u = true).
  { intros y Hy. destruct (IH y Hy) as (u & Hu & E). exists u. split; [| exact E].
    simpl. destruct (existsb (vec3_eqb x) vs); [assumption | right; assumption]. }
  apply elem_of_cons in Hin as [-> | Hin]; [| auto].
  simpl. destruct (existsb (vec3_eqb x) vs) eqn:Ex.
  - apply existsb_elem_of in Ex as (y & Hy & Exy).
    destruct (IH y Hy) as (u & Hu & Eyu). exists u. split; [assumption |].
    eapply vec3_eqb_trans; eassumption.
  - exists x. split; [left | apply vec3_eqb_refl].
Qed.

(** No two of the rows kept are equal. *)
Lemma unique_rows_distinct vs i j u u' :
  (i < j)%nat -> unique_rows vs !! i = Some u -> unique_rows vs !! j = Some u' ->
  vec3_eqb u u' = false.
Proof.
  revert i j. induction vs as [| x vs IH]; intros i j Hij; simpl; [discriminate |].
  destruct (existsb (vec3_eqb x) vs) eqn:Ex; [apply IH; assumption |].
  destruct i as [| i], j as [| j]; try lia; simpl.
  - intros [= <-] Hj. destruct (vec3_eqb x u') eqn:E; [| reflexivity].
    assert (Hex : existsb (vec3_eqb x) vs = true).
    { apply existsb_elem_of. exists u'. split; [| assumption].
      apply unique_rows_sound. eapply list_elem_of_lookup_2. eassumption. }
    congruence.
  - apply IH. lia.
Qed.

(** Some rows are dropped exactly when two vertices have the same
    position. *)
Lemma unique_rows_drops vs :
  (length (unique_rows vs) < length vs)%nat <->
  exists i j v v', (i < j)%nat /\ vs !! i = Some v /\ vs !! j = Some v' /\
                   vec3_eqb v v' = true.
Proof.
  induction vs as [| x vs IH]; simpl.
  - split; [lia |]. intros (i & j & v & v' & _ & H & _). discriminate.
  - pose proof (unique_rows_length vs) as Hle.
    destruct (existsb (vec3_eqb x) vs) eqn:Ex.
    + split; [| lia]. intros _.
      apply existsb_elem_of in Ex as (y & Hy & Exy).
      apply list_elem_of_lookup in Hy as [j Hj].
      exists 0%nat, (S j), x, y. repeat split; try assumption. lia.
    + simpl. split.
      * intros H. destruct IH as [IH _].
        destruct (IH ltac:(lia)) as (i & j & v & v' & Hij & Hi & Hj & E).
        exists (S i), (S j), v, v'. repeat split; try assumption. lia.
      * intros (i & j & v & v' & Hij & Hi & Hj & E).
        destruct i as [| i]; simpl in Hi.
        -- injection Hi as <-. destruct j as [| j]; [lia |]. simpl in Hj.
           assert (Hex : existsb (vec3_eqb x) vs = true).
           { apply existsb_elem_of. exists v'. split; [| assumption].
             eapply list_elem_of_lookup_2. eassumption. }
           congruence.
        -- destruct j as [| j]; [lia |]. simpl in Hj.
           destruct IH as [_ IH].
           assert (length (unique_rows vs) < length vs)%nat; [| lia].
           apply IH. exists i, j, v, v'. repeat split; try assumption. lia.
Qed.

Lemma count_close_to_zero_pos areas :
  0 < count_close_to_zero areas <-> exists a, a ∈ areas /\ isclose a 0 = true.
Proof.
  unfold count_close_to_zero.
  destruct (filter (fun a => isclose a 0 = true) areas) as [| a l] eqn:E.
  - simpl. split; [lia |]. intros (a & Ha & Hc).
    assert (a ∈ filter (fun a => isclose a 0 = true) areas)
      by (apply list_elem_of_filter; split; assumption).
    rewrite E in H. inversion H.
  - simpl. split; [| lia]. intros _. exists a.
    assert (Ha : a ∈ filter (fun a => isclose a 0 = true) areas) by (rewrite E; left).
    apply list_elem_of_filter in Ha as [Hc Ha]. split; assumption.
Qed.

Lemma isclose_zero a : (a == 0)%Q -> isclose a 0 = true.
Proof.
  intros H. unfold isclose. apply Qle_bool_iff. apply Qabs_Qle_condition.
  change (Qabs 0) with 0%Q. unfold atol, rtol. split; lra.
Qed.

Lemma validate_mesh_returns `{K : TrimeshKernel} mesh :
  is_Some (bounds mesh) -> exists r, validate_mesh mesh = Ok r.
Proof.
  intros [[lo hi] Hb]. unfold validate_mesh. rewrite Hb. eexists. reflexivity.
Qed.

Section Validation.
Context `{K : TrimeshKernel}.
Variable mesh : Trimesh.

Local Abbreviation degenerate := (count_close_to_zero (area_faces mesh)).
Local Abbreviation duplicates :=
  (Z.of_nat (length (vertices mesh)) - Z.of_nat (length (unique_rows (vertices mesh)))).

(** The entries of the report that the checks write. *)
Lemma validate_mesh_entries r :
  validate_mesh mesh = Ok r ->
  r !! "is_valid" = Some (VBool (is_watertight mesh && negb (0 <? degenerate))) /\
  r !! "degenerate_faces" = (if 0 <? degenerate then Some (VInt degenerate) else None) /\
  r !! "duplicate_vertices" = (if 0 <? duplicates then Some (VInt duplicates) else None) /\
  r !! "errors" = Some (VList (
    (if is_watertight mesh then [] else ["Mesh is not watertight (has holes)"]) ++
    (if 0 <? degenerate
     then ["Found " +:+ pretty degenerate +:+ " degenerate faces (zero area)"]
     else []))) /\
  r !! "warnings" = Some (VList (
    (if is_winding_consistent mesh then [] else ["Face winding is inconsistent"]) ++
    (if 0 <? duplicates
     then ["Found " +:+ pretty duplicates +:+ " duplicate vertices"] else []) ++
    (if (Z.of_nat (length (faces mesh)) <? 50000) && negb (is_volume mesh)
     then ["Mesh may have self-intersections or is not a volume"] else []))).
Proof.
  unfold validate_mesh.
  destruct (bounds mesh) as [[lo hi] |]; [| discriminate].
  intros [= <-].
  generalize (is_watertight mesh) (is_winding_consistent mesh) (0 <? degenerate)
    (0 <? duplicates) (Z.of_nat (length (faces mesh)) <? 50000) (is_volume mesh).
  intros [] [] [] [] [] []; repeat split.
Qed.
End Validation.

Section ValidationTheorems.
Context `{K : TrimeshKernel}.

(** C2: a returned report has [is_valid] true exactly when the mesh is
    watertight and no face has near-zero area.  With one or more such
    faces (a face of area zero is one) [is_valid] is false and
    [degenerate_faces] is their number.  Inconsistent winding and
    duplicate vertices add a warning each and no error.  A report is
    returned exactly when the mesh has a bounding box. *)
Theorem validate_mesh_validity (mesh : Trimesh) :
  let degenerate := count_close_to_zero (area_faces mesh) in
  let duplicates :=
    Z.of_nat (length (vertices mesh)) - Z.of_nat (length (unique_rows (vertices mesh))) in
  (is_Some (bounds mesh) <-> exists r, validate_mesh mesh = Ok r) /\
  forall r, validate_mesh mesh = Ok r ->
    (exists b, r !! "is_valid" = Some (VBool b) /\
               (b = true <-> is_watertight mesh = true /\ degenerate = 0)) /\
    (0 < degenerate ->
       r !! "is_valid" = Some (VBool false) /\
       r !! "degenerate_faces" = Some (VInt degenerate)) /\
    ((exists a, a ∈ area_faces mesh /\ (a == 0)%Q) -> 0 < degenerate) /\
    (exists ws es, r !! "warnings" = Some (VList ws) /\ r !! "errors" = Some (VList es) /\
       (is_winding_consistent mesh = false -> "Face winding is inconsistent" ∈ ws) /\
       (0 < duplicates ->
          ("Found " +:+ pretty duplicates +:+ " duplicate vertices") ∈ ws) /\
       es = (if is_watertight mesh then [] else ["Mesh is not watertight (has holes)"]) ++
            (if 0 <? degenerate
             then ["Found " +:+ pretty degenerate +:+ " degenerate faces (zero area)"]
             else [])).
Proof.
  intros degenerate duplicates.
  assert (Hnn : 0 <= degenerate) by (subst degenerate; unfold count_close_to_zero; lia).
  split.
  - split; [apply validate_mesh_returns |].
    unfold validate_mesh. destruct (bounds mesh) as [[lo hi] |]; [eauto |].
    intros [? [=]].
  - intros r Hr. apply validate_mesh_entries in Hr as (Hv & Hd & Hu & He & Hw).
    fold degenerate in Hv, Hd, He. fold duplicates in Hu, Hw.
    split; [| split; [| split]].
    + eexists. split; [exact Hv |]. rewrite andb_true_iff, negb_true_iff, Z.ltb_ge. intuition lia.
    + intros Hpos. apply Z.ltb_lt in Hpos. rewrite Hpos in Hv, Hd.
      rewrite andb_false_r in Hv. auto.
    + intros (a & Ha & H0). apply count_close_to_zero_pos. exists a.
      split; [assumption | apply isclose_zero; assumption].
    + eexists _, _. split; [exact Hw |]. split; [exact He |].
      split; [| split; [| reflexivity]].
      * intros ->. apply elem_of_app. left. left.
      * intros Hpos. apply Z.ltb_lt in Hpos. rewrite Hpos.
        apply elem_of_app. right. apply elem_of_app. left. left.
Qed.

(** C10: a returned report has the key [degenerate_faces] exactly when
    some face has near-zero area, and the key [duplicate_vertices]
    exactly when two vertices have the same position; their values are
    the number of near-zero-area faces and the number of vertices minus
    the number of distinct positions, that is the length of a list that
    has every position of a vertex exactly once.  The counts are
    positive: a key is absent rather than 0. *)
Theorem validate_mesh_optional_counts (mesh : Trimesh) (r : gmap string value) :
  validate_mesh mesh = Ok r ->
  let degenerate := count_close_to_zero (area_faces mesh) in
  let duplicates :=
    Z.of_nat (length (vertices mesh)) - Z.of_nat (length (unique_rows (vertices mesh))) in
  (is_Some (r !! "degenerate_faces") <->
     exists a, a ∈ area_faces mesh /\ isclose a 0 = true) /\
  (is_Some (r !! "duplicate_vertices") <->
     exists i j v v', (i < j)%nat /\ vertices mesh !! i = Some v /\
                      vertices mesh !! j = Some v' /\ vec3_eqb v v' = true) /\
  (forall x, r !! "degenerate_faces" = Some x -> x = VInt degenerate /\ 0 < degenerate) /\
  (forall x, r !! "duplicate_vertices" = Some x -> x = VInt duplicates /\ 0 < duplicates) /\
  (* the rows counted as distinct: every position once *)
  ((forall v, v ∈ vertices mesh ->
      exists u, u ∈ unique_rows (vertices mesh) /\ vec3_eqb v u = true) /\
   (forall u, u ∈ unique_rows (vertices mesh) -> u ∈ vertices mesh) /\
   (forall i j u u', (i < j)%nat ->
      unique_rows (vertices mesh) !! i = Some u ->
      unique_rows (vertices mesh) !! j = Some u' -> vec3_eqb u u' = false)).
Proof.
  intros Hr degenerate duplicates.
  apply validate_mesh_entries in Hr as (_ & Hd & Hu & _).
  fold degenerate in Hd. fold duplicates in Hu.
  split; [| split; [| split; [| split]]].
  - rewrite <- count_close_to_zero_pos. fold degenerate. rewrite Hd.
    destruct (0 <? degenerate) eqn:E.
    + apply Z.ltb_lt in E. split; [intros _; assumption | eauto].
    + apply Z.ltb_ge in E. split; [intros [? [=]] | lia].
  - rewrite <- unique_rows_drops. rewrite Hu.
    destruct (0 <? duplicates) eqn:E.
    + apply Z.ltb_lt in E. split; [intros _; subst duplicates; lia | eauto].
    + apply Z.ltb_ge in E. split; [intros [? [=]] | subst duplicates; lia].
  - intros x. rewrite Hd. destruct (0 <? degenerate) eqn:E; [| discriminate].
    apply Z.ltb_lt in E. intros [= <-]. auto.
  - intros x. rewrite Hu. destruct (0 <? duplicates) eqn:E; [| discriminate].
    apply Z.ltb_lt in E. intros [= <-]. auto.
  - split; [apply unique_rows_complete |].
    split; [apply unique_rows_sound | apply unique_rows_distinct].
Qed.
End ValidationTheorems.

(** The statement of C2 at the square, which has a collapsed face. *)
Lemma validate_mesh_validity_witness :
  exists r, validate_mesh (K := square_kernel) square = Ok r /\
            r !! "is_valid" = Some (VBool false) /\
            r !! "degenerate_faces" = Some (VInt 1).
Proof.
  destruct (validate_mesh_validity (K := square_kernel) square) as [Hret Hrep].
  destruct Hret as [Hret _]. destruct Hret as [r Hr]; [eexists; reflexivity |].
  exists r. split; [exact Hr |].
  destruct (Hrep r Hr) as (_ & Hdeg & Hzero & _).
  apply Hdeg. apply Hzero. exists 0%Q. split; [| reflexivity].
  right. right. left.
Defined.

(** The statement of C10 at the square: one collapsed face, one corner twice. *)
Lemma validate_mesh_optional_counts_witness :
  exists r, validate_mesh (K := square_kernel) square = Ok r /\
            r !! "degenerate_faces" = Some (VInt 1) /\
            r !! "duplicate_vertices" = Some (VInt 1).
Proof.
  destruct (validate_mesh_returns (K := square_kernel) square) as [r Hr];
    [eexists; reflexivity |].
  exists r. split; [exact Hr |].
  destruct (validate_mesh_optional_counts (K := square_kernel) square r Hr)
    as (Hdeg & Hdup & Vdeg & Vdup & _).
  split.
  - destruct Hdeg as [_ Hdeg]. destruct Hdeg as [x Hx].
    + exists 0%Q. split; [right; right; left | reflexivity].
    + destruct (Vdeg x Hx) as [-> _]. exact Hx.
  - destruct Hdup as [_ Hdup]. destruct Hdup as [x Hx].
    + exists 0%nat, 4%nat, (0, 0, 0)%Q, (0, 0, 0)%Q. repeat split. lia.
    + destruct (Vdup x Hx) as [-> _]. exact Hx.
Defined.

(** *** Validation of small meshes *)

Example validate_square :
  match validate_mesh (K := square_kernel) square with
  | Ok r =>
      r !! "is_valid" = Some (VBool false) /\
      r !! "errors" = Some (VList ["Mesh is not watertight (has holes)";
                                   "Found 1 degenerate faces (zero area)"]) /\
      r !! "warnings" = Some (VList ["Face winding is inconsistent";
                                     "Found 1 duplicate vertices";
                                     "Mesh may have self-intersections or is not a volume"]) /\
      r !! "has_degenerate_faces" = Some (VBool true)
  | Raise _ => False
  end.
Proof. vm_compute. repeat split. Qed.

Example validate_triangle :
  match validate_mesh (K := triangle_kernel) triangle with
  | Ok r =>
      r !! "is_valid" = Some (VBool false) /\
      r !! "degenerate_faces" = None /\ r !! "duplicate_vertices" = None /\
      r !! "num_faces" = Some (VInt 1)
  | Raise _ => False
  end.
Proof. vm_compute. repeat split. Qed.

(** A mesh without vertices has no bounding box: [validate_mesh] raises. *)
Example validate_empty_mesh :
  validate_mesh (K := table_kernel true true false [] None []) (mk_Trimesh [] [])
  = Raise TypeError.
Proof. reflexivity. Qed.

(** ** Laplacian smoothing *)

Lemma gather_raises vs idx e : gather vs idx = Raise e -> e = IndexError.
Proof.
  induction idx as [| i idx IH]; simpl; [discriminate |].
  destruct (vs !! i); [| intros [= <-]; reflexivity].
  destruct (gather vs idx); simpl; [discriminate |].
  intros [= <-]. apply IH. reflexivity.
Qed.


Lemma elem_of_enumerate {A} (l : list A) i x : (i, x) ∈ enumerate l <-> l !! i = Some x.
Proof.
  unfold enumerate. rewrite elem_of_lookup_imap. split.
  - intros (j & y & [= -> ->] & H). exact H.
  - intros H. eauto.
Qed.

Lemma enumerate_NoDup {A} (l : list A) : NoDup (enumerate l).*1.
Proof.
  unfold enumerate. apply NoDup_alt. intros i j x.
  rewrite !list_lookup_fmap, !list_lookup_imap.
  destruct (l !! i) eqn:Hi, (l !! j) eqn:Hj; simpl; congruence.
Qed.

Section SmoothingFacts.
Variable lambda_factor : Q.
Variable old : list vec3.

Local Abbreviation blend := (blend lambda_factor).

Lemma smooth_vertex_raises nv it e :
  smooth_vertex lambda_factor old nv it = Raise e -> e = IndexError.
Proof.
  destruct it as [i nb]. unfold smooth_vertex.
  destruct (0 <? length nb)%nat; [| discriminate].
  destruct (gather old nb) eqn:Hg; simpl.
  - destruct (old !! i); [| intros [= <-]; reflexivity].
    destruct (i <? length nv)%nat; [discriminate | intros [= <-]; reflexivity].
  - intros [= <-]. eapply gather_raises. eassumption.
Qed.

Lemma smooth_vertex_length nv it nv' :
  smooth_vertex lambda_factor old nv it = Ok nv' -> length nv' = length nv.
Proof.
  destruct it as [i nb]. unfold smooth_vertex.
  destruct (0 <? length nb)%nat; [| intros [= <-]; reflexivity].
  destruct (gather old nb); simpl; [| discriminate].
  destruct (old !! i); [| discriminate].
  destruct (i <? length nv)%nat; [| discriminate].
  intros [= <-]. apply length_insert.
Qed.

(** What one iteration of the loop does to the entry [j] of
    [new_vertices]. *)
Lemma smooth_vertex_lookup nv i nb nv' j :
  smooth_vertex lambda_factor old nv (i, nb) = Ok nv' ->
  (i = j /\ nb <> [] /\
     exists pts v, gather old nb = Ok pts /\ old !! i = Some v /\
                   nv' !! j = Some (blend v pts)) \/
  ((i <> j \/ nb = []) /\ nv' !! j = nv !! j).
Proof.
  unfold smooth_vertex. destruct nb as [| n0 nb]; simpl length.
  { intros [= <-]. right. auto. }
  change (0 <? S (length nb))%nat with true. cbv iota.
  destruct (gather old (n0 :: nb)) as [pts |]; simpl; [| discriminate].
  destruct (old !! i) as [v |]; [| discriminate].
  destruct (i <? length nv)%nat eqn:Hlt; [| discriminate].
  apply Nat.ltb_lt in Hlt. intros [= <-].
  destruct (decide (i = j)) as [<- | Hne].
  - left. split; [reflexivity |]. split; [discriminate |].
    exists pts, v. repeat split. apply list_lookup_insert_eq. assumption.
  - right. split; [left; assumption |]. apply list_lookup_insert_ne. assumption.
Qed.

Lemma smooth_loop_cons it items nv :
  smooth_loop lambda_factor old (it :: items) nv =
  smooth_vertex lambda_factor old nv it ≫= smooth_loop lambda_factor old items.
Proof. reflexivity. Qed.

Lemma smooth_loop_length items nv nv' :
  smooth_loop lambda_factor old items nv = Ok nv' -> length nv' = length nv.
Proof.
  revert nv. induction items as [| it items IH]; intros nv.
  - simpl. intros [= <-]. reflexivity.
  - rewrite smooth_loop_cons.
    destruct (smooth_vertex lambda_factor old nv it) as [nv1 |] eqn:H1; [| discriminate].
    simpl. intros H. rewrite (IH _ H). eapply smooth_vertex_length. eassumption.
Qed.

(** After the loop, the entry of a vertex with neighbours is the blend of
    its old position and the mean of the old positions of its
    neighbours; the entry of any other vertex is as before the loop. *)
Lemma smooth_loop_lookup items nv nv' j :
  NoDup items.*1 ->
  smooth_loop lambda_factor old items nv = Ok nv' ->
  (forall nb, (j, nb) ∈ items -> nb <> [] ->
     exists pts v, gather old nb = Ok pts /\ old !! j = Some v /\
                   nv' !! j = Some (blend v pts)) /\
  ((forall nb, (j, nb) ∈ items -> nb = []) -> nv' !! j = nv !! j).
Proof.
  revert nv. induction items as [| [i nb0] items IH]; intros nv Hnd.
  - simpl. intros [= <-]. split; [intros nb H; inversion H | reflexivity].
  - rewrite smooth_loop_cons.
    destruct (smooth_vertex lambda_factor old nv (i, nb0)) as [nv1 |] eqn:H1;
      [| discriminate].
    simpl. intros Hloop. apply NoDup_cons in Hnd as [Hnotin Hnd].
    destruct (IH nv1 Hnd Hloop) as [IH1 IH2].
    apply (smooth_vertex_lookup _ _ _ _ j) in H1. split.
    + intros nb Hin Hne. apply elem_of_cons in Hin as [[= <- <-] | Hin]; [| eauto].
      destruct H1 as [(_ & _ & pts & v & Hg & Hv & Hj) | ([Hij | Hnil] & _)];
        [| congruence | congruence].
      exists pts, v. repeat split; try assumption. rewrite <- Hj. apply IH2.
      intros nb' Hin'. exfalso. apply Hnotin.
      apply list_elem_of_fmap. exists (j, nb'). split; [reflexivity | assumption].
    + intros Hall. rewrite IH2 by (intros nb' Hin'; apply Hall; right; assumption).
      destruct H1 as [(<- & Hne & _) | (_ & Hj)]; [| assumption].
      exfalso. apply Hne. apply Hall. left.
Qed.



End SmoothingFacts.

Section SmoothingTheorem.
Context `{K : TrimeshKernel}.

End SmoothingTheorem.


(** Half-way smoothing of the triangle moves every corner half-way to the
    midpoint of the opposite side. *)
Example smooth_triangle :
  match smooth_pass (K := triangle_kernel) (1 # 2) triangle with
  | Ok mesh' =>
      map (fun v => (Qred v.1.1, Qred v.1.2, Qred v.2)) (vertices mesh')
      = [(1 # 4, 1 # 4, 0); (1 # 2, 1 # 4, 0); (1 # 4, 1 # 2, 0)]%Q
  | Raise _ => False
  end.
Proof. vm_compute. reflexivity. Qed.

(** ** Copies and aliases *)

Lemma bindM_ok {A B} (m : M A) (k : A -> M B) (σ σ' : store) a :
  m σ = (Ok a, σ') -> bindM m k σ = k a σ'.
Proof. intros H. unfold bindM. rewrite H. reflexivity. Qed.










Lemma new_run (σ : store) o :
  new o σ = (Ok (fresh (dom σ)), <[fresh (dom σ) := o]> σ).
Proof. reflexivity. Qed.





Section Frames.
Context `{K : TrimeshKernel}.



(** A call with one iteration is one pass on the copy. *)
Lemma smooth_mesh_one_pass (σ : store) mesh m lambda_factor :
  σ !! mesh = Some (MeshObj m) ->
  smooth_mesh mesh 1 lambda_factor σ =
  match smooth_pass lambda_factor m with
  | Ok m' => (Ok (fresh (dom σ)), <[fresh (dom σ) := MeshObj m']> σ)
  | Raise e => (Raise e, <[fresh (dom σ) := MeshObj m]> σ)
  end.
Proof.
  intros Hm. unfold smooth_mesh. rewrite (bindM_ok _ _ _ _ _ (copy_run _ _ _ Hm)).
  change (Z.to_nat 1) with 1%nat. simpl smooth_passes. unfold bindM.
  rewrite inplace_mesh_run. destruct (smooth_pass lambda_factor m); reflexivity.
Qed.






End Frames.

Section Stages.
Context `{G : Generator} `{K : TrimeshKernel}.

End Stages.


(** ** Isosurface extraction

    What [extract_isosurface] does is what [marching_cubes] does: an
    exception of [marching_cubes] is passed on, and without smoothing the
    result is the mesh built from the arrays that [marching_cubes]
    returns. *)

Section Isosurface.
Context `{K : TrimeshKernel} `{S : Skimage}.

Lemma extract_isosurface_passes_on (σ : store) field fv isovalue spacing smooth its e :
  σ !! field = Some (FieldObj fv) ->
  marching_cubes fv isovalue spacing = Raise e ->
  extract_isosurface field isovalue spacing smooth its σ = (Raise e, σ).
Proof.
  intros Hf Hmc. unfold extract_isosurface, bindM, load_field, bindM, load, retM.
  rewrite Hf, Hmc. reflexivity.
Qed.

Lemma extract_isosurface_unsmoothed (σ : store) field fv isovalue spacing its vs fs ns vals :
  σ !! field = Some (FieldObj fv) ->
  marching_cubes fv isovalue spacing = Ok (vs, fs, ns, vals) ->
  extract_isosurface field isovalue spacing false its σ =
  (Ok (fresh (dom σ)), <[fresh (dom σ) := MeshObj (trimesh_new vs fs ns)]> σ).
Proof.
  intros Hf Hmc. unfold extract_isosurface, bindM, load_field, bindM, load, retM, new.
  rewrite Hf, Hmc. reflexivity.
Qed.
End Isosurface.

(** * Further properties *)

(** ** The shapes of the boundary masks *)

Lemma sqrt_le_iff s b : sqrt_le s b = true <-> (0 <= b /\ s <= b * b)%Q.
Proof.
  unfold sqrt_le. rewrite andb_true_iff, !Qle_bool_iff. reflexivity.
Qed.





Lemma linspace_range n i : 0 <= i < n -> (-1 <= linspace n i <= 1)%Q.
Proof.
  intros Hi. unfold linspace. destruct (n =? 1) eqn:E; [split; discriminate |].
  apply Z.eqb_neq in E.
  assert (Hd : (0 < inject_Z (n - 1))%Q) by (unfold Qlt; simpl; lia).
  assert (Hi0 : (0 <= inject_Z i)%Q) by (unfold Qle; simpl; lia).
  assert (Hi1 : (inject_Z i <= inject_Z (n - 1))%Q) by (unfold Qle; simpl; lia).
  assert (Hq : (0 <= inject_Z i / inject_Z (n - 1) <= 1)%Q).
  { split.
    - apply Qle_shift_div_l; [assumption | lra].
    - apply Qle_shift_div_r; [assumption | lra]. }
  assert (He : (inject_Z i * (2 / inject_Z (n - 1)) == 2 * (inject_Z i / inject_Z (n - 1)))%Q).
  { field. lra. }
  rewrite He. lra.
Qed.

Lemma linspace_monotone n k k' :
  0 <= k <= k' -> k' < n -> (linspace n k <= linspace n k')%Q.
Proof.
  intros Hk Hn. unfold linspace. destruct (n =? 1) eqn:E; [apply Qle_refl |].
  apply Z.eqb_neq in E.
  assert (Hd : (0 < inject_Z (n - 1))%Q) by (unfold Qlt; simpl; lia).
  assert (Hkk : (inject_Z k <= inject_Z k')%Q) by (unfold Qle; simpl; lia).
  assert (Hp : (0 < 2 / inject_Z (n - 1))%Q).
  { apply Qlt_shift_div_l; [assumption | lra]. }
  nra.
Qed.


Lemma Qabs_le_of_sq x r : (0 <= r)%Q -> (x * x <= r * r)%Q -> (Qabs x <= r)%Q.
Proof.
  intros Hr Hx. apply Qabs_Qle_condition. split; nra.
Qed.


(** X2: the second component of the vase builder's tuple is the height of
    a cell: it does not depend on [i] and [j], lies between 0 and 1 inside
    the grid, grows with [k], and for [n >= 2] is 0 at the bottom layer
    and 1 at the top layer. *)
Theorem vase_z_norm_is_height (n : Z) (radius_frac taper : Q) :
  match z_norm_of (make_vase_mask n radius_frac taper) with
  | Some z =>
      (shape0 z = n /\ shape1 z = n /\ shape2 z = n) /\
      (forall i j i' j' k, item z i j k = item z i' j' k) /\
      (forall i j k, 0 <= k < n -> (0 <= item z i j k <= 1)%Q) /\
      (forall i j k k', 0 <= k <= k' -> k' < n -> (item z i j k <= item z i j k')%Q) /\
      (2 <= n -> forall i j, (item z i j 0 == 0)%Q /\ (item z i j (n - 1) == 1)%Q)
  | None => n < 0
  end.
Proof.
  unfold make_vase_mask. destruct (n <? 0) eqn:Hn; simpl.
  { apply Z.ltb_lt in Hn. exact Hn. }
  split; [auto |]. split; [reflexivity |]. unfold z_norm_cell. split; [| split].
  - intros i j k Hk. pose proof (linspace_range n k Hk). split.
    + apply Qle_shift_div_l; lra.
    + apply Qle_shift_div_r; lra.
  - intros i j k k' Hk Hk'. pose proof (linspace_monotone n k k' Hk Hk').
    unfold Qdiv. apply Qmult_le_compat_r; [lra | discriminate].
  - intros Hn2 i j. unfold linspace. destruct (n =? 1) eqn:E; [lia |].
    assert (Hne : ~ (inject_Z (n - 1) == 0)%Q) by (unfold Qeq; simpl; lia).
    split; field; exact Hne.
Qed.

Lemma Qsq_nonneg x : (0 <= x * x)%Q.
Proof. nra. Qed.

(** X3: with a non-negative radius and a non-negative taper the vase
    narrows upwards: inside the grid, a cell of the mask at layer [k'] is
    also in the mask at every lower layer [k], and every cell of the vase
    mask is a cell of the cylinder mask of the same radius. *)
Theorem vase_narrows_upwards (n : Z) (radius_frac taper : Q) :
  (0 <= radius_frac)%Q -> (0 <= taper)%Q ->
  match mask_of (make_vase_mask n radius_frac taper),
        mask_of (make_cylinder_mask n radius_frac) with
  | Some vase, Some cylinder =>
      (forall i j k k', 0 <= k <= k' -> k' < n ->
         item vase i j k' = true -> item vase i j k = true) /\
      (forall i j k, 0 <= k < n ->
         item vase i j k = true -> item cylinder i j k = true)
  | None, None => n < 0
  | _, _ => False
  end.
Proof.
  intros Hr Ht. unfold make_cylinder_mask, make_vase_mask.
  destruct (n <? 0) eqn:Hn; simpl.
  { apply Z.ltb_lt in Hn. exact Hn. }
  split.
  - intros i j k k' Hk Hk'. unfold vase_cell. cbv zeta.
    rewrite !sqrt_le_iff. intros [H0 Hs].
    pose proof (linspace_monotone n k k' Hk Hk') as Hm.
    pose proof (linspace_range n k ltac:(lia)) as Hk1.
    set (s := (linspace n i * linspace n i + linspace n j * linspace n j)%Q) in *.
    set (zk := linspace n k) in *. set (zk' := linspace n k') in *.
    assert (Hz : ((zk + 1) / 2 <= (zk' + 1) / 2)%Q).
    { unfold Qdiv. apply Qmult_le_compat_r; [lra | discriminate]. }
    set (a := ((zk + 1) / 2)%Q) in *. set (a' := ((zk' + 1) / 2)%Q) in *.
    clearbody s a a'.
    assert (H1 : (0 <= taper * (a' - a))%Q) by (apply Qmult_le_0_compat; lra).
    assert (H2 : (0 <= radius_frac * (taper * (a' - a)))%Q)
      by (apply Qmult_le_0_compat; assumption).
    assert (E : (radius_frac * (1 - taper * a) - radius_frac * (1 - taper * a')
                 == radius_frac * (taper * (a' - a)))%Q) by ring.
    set (rz := (radius_frac * (1 - taper * a))%Q) in *.
    set (rz' := (radius_frac * (1 - taper * a'))%Q) in *.
    clearbody rz rz'. split; [lra | nra].
  - intros i j k Hk. unfold vase_cell. cbv zeta.
    rewrite !sqrt_le_iff. intros [H0 Hs].
    pose proof (linspace_range n k Hk) as Hk1.
    set (s := (linspace n i * linspace n i + linspace n j * linspace n j)%Q) in *.
    assert (Hz : (0 <= (linspace n k + 1) / 2)%Q).
    { apply Qle_shift_div_l; lra. }
    set (a := ((linspace n k + 1) / 2)%Q) in *. clearbody s a.
    assert (H1 : (0 <= taper * a)%Q) by (apply Qmult_le_0_compat; lra).
    assert (H2 : (0 <= radius_frac * (taper * a))%Q)
      by (apply Qmult_le_0_compat; assumption).
    assert (E : (radius_frac * (1 - 0 * a) - radius_frac * (1 - taper * a)
                 == radius_frac * (taper * a))%Q) by ring.
    assert (E0 : (radius_frac * (1 - 0 * a) == radius_frac)%Q) by ring.
    set (rz := (radius_frac * (1 - taper * a))%Q) in *.
    set (r0 := (radius_frac * (1 - 0 * a))%Q) in *.
    clearbody rz r0. split; [lra | nra].
Qed.

(** X3 at a vase of 5 layers. *)
Lemma vase_narrows_upwards_witness :
  match mask_of (make_vase_mask 5 (7 # 10) (3 # 10)),
        mask_of (make_cylinder_mask 5 (7 # 10)) with
  | Some vase, Some cylinder =>
      (forall i j k k', 0 <= k <= k' -> k' < 5 ->
         item vase i j k' = true -> item vase i j k = true) /\
      (forall i j k, 0 <= k < 5 ->
         item vase i j k = true -> item cylinder i j k = true)
  | None, None => 5 < 0
  | _, _ => False
  end.
Proof.
  apply (vase_narrows_upwards 5 (7 # 10) (3 # 10)); discriminate.
Defined.

(** X4: a sphere mask is contained in the cylinder mask and in the box
    mask of the same radius, and the sphere, cylinder and box masks grow
    with their radius. *)
Theorem masks_nested (n : Z) (r r' : Q) :
  (r <= r')%Q ->
  match mask_of (make_sphere_mask n r), mask_of (make_cylinder_mask n r),
        mask_of (make_box_mask n r) with
  | Some sphere, Some cylinder, Some box =>
      mask_subset sphere cylinder /\ mask_subset sphere box /\
      match mask_of (make_sphere_mask n r'), mask_of (make_cylinder_mask n r'),
            mask_of (make_box_mask n r') with
      | Some sphere', Some cylinder', Some box' =>
          mask_subset sphere sphere' /\ mask_subset cylinder cylinder' /\
          mask_subset box box'
      | _, _, _ => False
      end
  | None, None, None => n < 0
  | _, _, _ => False
  end.
Proof.
  intros Hrr. unfold make_cylinder_mask, make_vase_mask, make_sphere_mask, make_box_mask.
  destruct (n <? 0) eqn:Hn; simpl.
  { apply Z.ltb_lt in Hn. exact Hn. }
  unfold mask_subset. simpl.
  repeat split; intros i j k.
  - rewrite vase_cell_taper0. unfold sphere_cell. cbv zeta. rewrite !sqrt_le_iff.
    intros [H0 Hs]. split; [assumption |].
    pose proof (Qsq_nonneg (linspace n k)). nra.
  - unfold sphere_cell, box_cell. cbv zeta.
    rewrite sqrt_le_iff, !andb_true_iff, !Qle_bool_iff. intros [H0 Hs].
    pose proof (Qsq_nonneg (linspace n i)). pose proof (Qsq_nonneg (linspace n j)).
    pose proof (Qsq_nonneg (linspace n k)).
    repeat split; apply Qabs_le_of_sq; try assumption; nra.
  - unfold sphere_cell. cbv zeta. rewrite !sqrt_le_iff. intros [H0 Hs]. split; [lra | nra].
  - rewrite !vase_cell_taper0. rewrite !sqrt_le_iff. intros [H0 Hs]. split; [lra | nra].
  - unfold box_cell. cbv zeta. rewrite !andb_true_iff, !Qle_bool_iff.
    intros [[H1 H2] H3]. repeat split; lra.
Qed.

(** X4 at radii 1/2 and 7/10. *)
Lemma masks_nested_witness :
  match mask_of (make_sphere_mask 4 (1 # 2)), mask_of (make_cylinder_mask 4 (1 # 2)),
        mask_of (make_box_mask 4 (1 # 2)) with
  | Some sphere, Some cylinder, Some box =>
      mask_subset sphere cylinder /\ mask_subset sphere box /\
      match mask_of (make_sphere_mask 4 (7 # 10)), mask_of (make_cylinder_mask 4 (7 # 10)),
            mask_of (make_box_mask 4 (7 # 10)) with
      | Some sphere', Some cylinder', Some box' =>
          mask_subset sphere sphere' /\ mask_subset cylinder cylinder' /\
          mask_subset box box'
      | _, _, _ => False
      end
  | None, None, None => 4 < 0
  | _, _, _ => False
  end.
Proof.
  apply (masks_nested 4 (1 # 2) (7 # 10)). discriminate.
Defined.


(** ** One carving operation *)












(** ** What the loop does to the field *)

Lemma qpow_add q a b : (qpow q (a + b) == qpow q a * qpow q b)%Q.
Proof.
  induction a as [| a IH]; simpl.
  - ring.
  - rewrite IH. ring.
Qed.

Lemma qpow_one k : (qpow 1 k == 1)%Q.
Proof. induction k as [| k IH]; simpl; [reflexivity | rewrite IH; ring]. Qed.

Lemma scaled_by_refl rf f : scaled_by rf 0 f f.
Proof.
  split; [repeat split |]. intros i j k. exists 0%nat. split; [lia |]. simpl. ring.
Qed.

Lemma scaled_by_trans rf a b f1 f2 f3 :
  scaled_by rf a f1 f2 -> scaled_by rf b f2 f3 -> scaled_by rf (a + b) f1 f3.
Proof.
  intros [S12 H12] [S23 H23]. split.
  - unfold same_shape in *. intuition congruence.
  - intros i j k. destruct (H12 i j k) as (e1 & L1 & E1).
    destruct (H23 i j k) as (e2 & L2 & E2).
    exists (e1 + e2)%nat. split; [lia |].
    rewrite E2, E1, qpow_add. ring.
Qed.

Lemma carve_scaled `{G : Generator} n radius rf f p f' :
  carve n radius rf f p = Ok f' -> scaled_by rf 1 f f'.
Proof.
  intros H. apply carve_cells in H as [Hs Hc]. split; [assumption |].
  intros i j k. destruct (Hc i j k) as [-> | ->].
  - exists 0%nat. split; [lia |]. simpl. ring.
  - exists 1%nat. split; [lia |]. simpl. ring.
Qed.



(** An invariant of the loop: a relation [R k] between the field before
    and after [k] carving operations, and a property [P] of the positions
    of the agents. *)
Section LoopInvariant.
Context `{G : Generator}.
Variable mask : ndarray bool.
Variable coords : list index.
Variable n : Z.
Variable radius : Q.
Variable rf : Q.
Variable P : index -> Prop.
Variable R : nat -> ndarray Q -> ndarray Q -> Prop.
Hypothesis R_refl : forall f, R 0 f f.
Hypothesis R_trans : forall a b f1 f2 f3, R a f1 f2 -> R b f2 f3 -> R (a + b) f1 f3.
Hypothesis R_carve : forall f p f', P p -> carve n radius rf f p = Ok f' -> R 1 f f'.
Hypothesis P_coords : forall p, p ∈ coords -> P p.
Hypothesis P_advance : forall p d, getitem mask (advance n p d) = Ok true -> P (advance n p d).

Lemma step_invariant w w' :
  P (w_pos w) -> step mask coords n radius rf w = Ok w' ->
  R 1 (w_field w) (w_field w') /\ P (w_pos w').
Proof.
  intros Hp. unfold step.
  destruct (carve n radius rf (w_field w) (w_pos w)) as [f |] eqn:Hc; [| discriminate].
  apply R_carve in Hc; [| assumption]. simpl.
  destruct (integers3 (-1) 2 (w_rng w)) as [d g1].
  destruct (getitem mask (advance n (w_pos w) d)) as [inside |] eqn:Hg; [| discriminate].
  simpl. destruct inside; simpl.
  - intros [= <-]. simpl. split; [assumption | apply P_advance; assumption].
  - destruct (pick coords g1) as [[p' g2] |] eqn:Hpick; [| discriminate]. simpl.
    intros [= <-]. simpl. split; [assumption |].
    apply P_coords. eapply pick_elem_of. eassumption.
Qed.

Lemma run_steps_invariant k w w' :
  P (w_pos w) -> run_steps mask coords n radius rf k w = Ok w' ->
  R k (w_field w) (w_field w') /\ P (w_pos w').
Proof.
  revert w. induction k as [| k IH]; intros w Hp; simpl.
  - intros [= <-]. split; [apply R_refl | assumption].
  - destruct (step mask coords n radius rf w) as [w1 |] eqn:Hs; [| discriminate].
    simpl. intros H. destruct (step_invariant w w1 Hp Hs) as [H1 Hp1].
    destruct (IH w1 Hp1 H) as [H2 Hp2]. split; [| assumption].
    change (S k) with (1 + k)%nat. eapply R_trans; eassumption.
Qed.

Lemma run_agent_invariant steps fg fg' :
  run_agent mask coords n radius rf steps fg = Ok fg' -> R steps fg.1 fg'.1.
Proof.
  unfold run_agent, start_agent.
  destruct (pick coords fg.2) as [[p g] |] eqn:Hpick; [| discriminate]. simpl.
  destruct (run_steps _ _ _ _ _ _ _) as [w' |] eqn:Hr; [| discriminate]. simpl.
  intros [= <-]. simpl.
  apply run_steps_invariant in Hr as [Hr _]; [exact Hr |].
  simpl. apply P_coords. eapply pick_elem_of. eassumption.
Qed.

Lemma run_agents_invariant steps k fg fg' :
  run_agents mask coords n radius rf steps k fg = Ok fg' -> R (k * steps) fg.1 fg'.1.
Proof.
  revert fg. induction k as [| k IH]; intros fg; simpl.
  - intros [= <-]. apply R_refl.
  - destruct (run_agent _ _ _ _ _ _ _) as [fg1 |] eqn:Ha; [| discriminate].
    simpl. intros H. eapply R_trans; [eapply run_agent_invariant; eassumption |].
    apply IH. assumption.
Qed.
End LoopInvariant.

Section CarverEffect.
Context `{G : Generator}.


(** X8: with [reduction_factor = 1] a returned field has the samples of
    the input. *)
Theorem carve_factor_one_keeps_samples (σ : store) field mask fv mv
    n_agents agent_steps radius rf seed entropy f σ' :
  σ !! field = Some (FieldObj fv) ->
  σ !! mask = Some (MaskObj mv) ->
  (rf == 1)%Q ->
  carve_tunnels_random_walk field mask n_agents agent_steps radius rf seed entropy σ
    = (Ok f, σ') ->
  exists out, σ' !! f = Some (FieldObj out) /\ same_shape out fv /\
    forall i j k, (item out i j k == item fv i j k)%Q.
Proof.
  intros Hf Hm Hrf. rewrite (carve_run σ field mask fv mv) by assumption. cbv zeta.
  assert (Hone : forall K out, scaled_by rf K fv out ->
                   forall i j k, (item out i j k == item fv i j k)%Q).
  { intros K out [_ Hs] i j k. destruct (Hs i j k) as (e & _ & ->).
    assert (Hq : (qpow rf e == 1)%Q).
    { clear -Hrf. induction e as [| e IH]; simpl; [reflexivity |]. rewrite IH, Hrf. ring. }
    rewrite Hq. ring. }
  destruct (_ || _ || _) eqn:Hc.
  - intros [= <- <-]. exists fv. split; [apply lookup_insert_eq |].
    split; [repeat split |]. reflexivity.
  - destruct (run_agents _ _ _ _ _ _ _ _) as [fg |] eqn:Hr; [| discriminate].
    intros [= <- <-]. exists fg.1. split; [apply lookup_insert_eq |].
    apply (run_agents_invariant mv (where_T mv) (shape0 fv) radius rf
             (fun _ => True) (scaled_by rf)) in Hr.
    + split; [apply Hr | eapply Hone; exact Hr].
    + apply scaled_by_refl.
    + apply scaled_by_trans.
    + intros ? ? ? _. apply carve_scaled.
    + trivial.
    + trivial.
Qed.

End CarverEffect.



Lemma carve_factor_one_run :
  let run := carve_tunnels_random_walk (H := lcg) 0%nat 1%nat 1 2 1 1
               (Some 42%N) 0%N (sample_store (ones 3) (full_mask 3)) in
  run = (Ok 2%nat, run.2).
Proof. cbv zeta. apply injective_projections; [vm_compute |]; reflexivity. Qed.

(** The statement of X8 at a field of ones, one agent and two steps. *)
Lemma carve_factor_one_keeps_samples_witness :
  let run := carve_tunnels_random_walk (H := lcg) 0%nat 1%nat 1 2 1 1
               (Some 42%N) 0%N (sample_store (ones 3) (full_mask 3)) in
  exists out, run.2 !! 2%nat = Some (FieldObj out) /\ same_shape out (ones 3) /\
    forall i j k, (item out i j k == 1)%Q.
Proof.
  cbv zeta.
  apply (carve_factor_one_keeps_samples (G := lcg) (sample_store (ones 3) (full_mask 3))
           0%nat 1%nat (ones 3) (full_mask 3) 1 2 1 1 (Some 42%N) 0%N 2%nat).
  - reflexivity.
  - reflexivity.
  - reflexivity.
  - exact carve_factor_one_run.
Defined.



(** ** Smoothing *)

Lemma gather_elem_of vs idx pts :
  gather vs idx = Ok pts -> length pts = length idx /\ Forall (fun p => p ∈ vs) pts.
Proof.
  revert pts. induction idx as [| i idx IH]; intros pts; simpl.
  - intros [= <-]. split; [reflexivity | constructor].
  - destruct (vs !! i) as [v |] eqn:Hv; [| discriminate].
    destruct (gather vs idx) as [pts' |]; simpl; [| discriminate].
    intros [= <-]. destruct (IH pts' eq_refl) as [Hl Hf]. split; [simpl; congruence |].
    constructor; [eapply list_elem_of_lookup_2; eassumption | assumption].
Qed.




Lemma blend_zero lambda_factor v pts :
  (lambda_factor == 0)%Q -> vec3_eq (blend lambda_factor v pts) v.
Proof.
  intros Hl. unfold blend, vec3_eq. destruct (vmean pts) as [[mx my] mz].
  destruct v as [[x y] z]. simpl. rewrite Hl. repeat split; ring.
Qed.

Section SmoothingPass.
Context `{K : TrimeshKernel}.

(** Every vertex after a pass is the vertex from before the pass, or the
    blend of it with the positions of a non-empty list of vertices from
    before the pass. *)
Lemma smooth_pass_vertex lambda_factor m m' j v' :
  smooth_pass lambda_factor m = Ok m' ->
  vertices m' !! j = Some v' ->
  faces m' = faces m /\ length (vertices m') = length (vertices m) /\
  exists v, vertices m !! j = Some v /\
    (v' = v \/
     exists pts, pts <> [] /\ Forall (fun p => p ∈ vertices m) pts /\
                 v' = blend lambda_factor v pts).
Proof.
  unfold smooth_pass.
  destruct (smooth_loop _ _ _ _) as [nv |] eqn:Hloop; [| discriminate].
  simpl. intros [= <-]. simpl. intros Hj.
  pose proof (smooth_loop_length _ _ _ _ _ Hloop) as Hlen.
  split; [reflexivity |]. split; [assumption |].
  assert (Hlt : (j < length (vertices m))%nat).
  { rewrite <- Hlen. eapply lookup_lt_Some. eassumption. }
  destruct (lookup_lt_is_Some_2 _ _ Hlt) as [v Hv]. exists v. split; [assumption |].
  destruct (smooth_loop_lookup _ _ _ _ _ j (enumerate_NoDup _) Hloop) as [H1 H2].
  destruct (vertex_neighbors m !! j) as [[| n0 nb] |] eqn:Hnb.
  - left. rewrite H2 in Hj; [congruence |].
    intros nb Hin. apply elem_of_enumerate in Hin. congruence.
  - right. destruct (H1 (n0 :: nb)) as (pts & v0 & Hg & Hv0 & Hnew);
      [apply elem_of_enumerate; assumption | discriminate |].
    apply gather_elem_of in Hg as [Hl Hf]. exists pts.
    split; [intros ->; discriminate |]. split; [assumption |]. congruence.
  - left. rewrite H2 in Hj; [congruence |].
    intros nb Hin. apply elem_of_enumerate in Hin. congruence.
Qed.


Lemma smooth_pass_shape lambda_factor m m' :
  smooth_pass lambda_factor m = Ok m' ->
  faces m' = faces m /\ length (vertices m') = length (vertices m).
Proof.
  unfold smooth_pass.
  destruct (smooth_loop _ _ _ _) as [nv |] eqn:Hloop; [| discriminate].
  simpl. intros [= <-]. simpl. split; [reflexivity |].
  eapply smooth_loop_length. eassumption.
Qed.

Lemma smooth_pass_zero lambda_factor m m' :
  (lambda_factor == 0)%Q ->
  smooth_pass lambda_factor m = Ok m' ->
  Forall2 vec3_eq (vertices m') (vertices m).
Proof.
  intros Hl Hpass. destruct (smooth_pass_shape _ _ _ Hpass) as [_ Hlen].
  apply Forall2_same_length_lookup. split; [assumption |].
  intros j v' v Hj Hv.
  destruct (smooth_pass_vertex _ _ _ _ _ Hpass Hj) as (_ & _ & v0 & Hv0 & Hcase).
  assert (v0 = v) by congruence. subst v0.
  destruct Hcase as [-> | (pts & _ & _ & ->)].
  - repeat split; reflexivity.
  - apply blend_zero. assumption.
Qed.

(** The loop of [smooth_mesh] on the copy [l]. *)
Lemma smooth_passes_run (σ : store) l k lambda_factor m :
  smooth_passes k l lambda_factor (<[l := MeshObj m]> σ) =
  ((smooth_run k lambda_factor m).1, <[l := MeshObj (smooth_run k lambda_factor m).2]> σ).
Proof.
  revert m. induction k as [| k IH]; intros m; [reflexivity |].
  cbn [smooth_passes smooth_run]. unfold bindM at 1. rewrite inplace_mesh_run.
  destruct (smooth_pass lambda_factor m) as [m' | e]; [apply IH | reflexivity].
Qed.

Lemma smooth_mesh_run (σ : store) mesh m iterations lambda_factor :
  σ !! mesh = Some (MeshObj m) ->
  smooth_mesh mesh iterations lambda_factor σ =
  let l := fresh (dom σ) in
  let run := smooth_run (Z.to_nat iterations) lambda_factor m in
  (match run.1 with Ok _ => Ok l | Raise e => Raise e end, <[l := MeshObj run.2]> σ).
Proof.
  intros Hm. unfold smooth_mesh. rewrite (bindM_ok _ _ _ _ _ (copy_run _ _ _ Hm)).
  unfold bindM. rewrite smooth_passes_run. cbv zeta.
  destruct (smooth_run _ _ _) as [[[] | e] m']; reflexivity.
Qed.

Lemma smooth_run_add a b lambda_factor m :
  smooth_run (a + b) lambda_factor m =
  match smooth_run a lambda_factor m with
  | (Ok _, m') => smooth_run b lambda_factor m'
  | (Raise e, m') => (Raise e, m')
  end.
Proof.
  revert m. induction a as [| a IH]; intros m; [reflexivity |].
  cbn [Nat.add smooth_run].
  destruct (smooth_pass lambda_factor m) as [m' | e]; [apply IH | reflexivity].
Qed.

Lemma smooth_run_invariant (P : Trimesh -> Prop) lambda_factor :
  (forall m m', P m -> smooth_pass lambda_factor m = Ok m' -> P m') ->
  forall k m, P m -> P (smooth_run k lambda_factor m).2.
Proof.
  intros Hstep k. induction k as [| k IH]; intros m Hm; [exact Hm |].
  cbn [smooth_run]. destruct (smooth_pass lambda_factor m) as [m' | e] eqn:Hp.
  - apply IH. eapply Hstep; eassumption.
  - exact Hm.
Qed.
End SmoothingPass.

Lemma vec3_eq_trans a b c : vec3_eq a b -> vec3_eq b c -> vec3_eq a c.
Proof.
  unfold vec3_eq. intros (? & ? & ?) (? & ? & ?).
  repeat split; eapply Qeq_trans; eassumption.
Qed.

Lemma Forall2_vec3_eq_refl vs : Forall2 vec3_eq vs vs.
Proof. apply Forall_Forall2_diag, Forall_forall. intros v _. repeat split; reflexivity. Qed.

Lemma Forall2_vec3_eq_trans us vs ws :
  Forall2 vec3_eq us vs -> Forall2 vec3_eq vs ws -> Forall2 vec3_eq us ws.
Proof.
  intros H. revert ws. induction H as [| u v us vs Huv _ IH]; intros ws Hw.
  - inversion Hw. constructor.
  - inversion Hw as [| v' w vs' ws' Hvw Hrest]; subst. constructor.
    + eapply vec3_eq_trans; eassumption.
    + apply IH. assumption.
Qed.

Section SmoothingTheorems.
Context `{K : TrimeshKernel}.

(** X10: with [iterations <= 0] the loop of [smooth_mesh] does not run:
    the call returns a new mesh object that equals the input, and does
    not raise. *)
Theorem smooth_mesh_no_iterations (σ : store) mesh m iterations lambda_factor :
  σ !! mesh = Some (MeshObj m) ->
  iterations <= 0 ->
  smooth_mesh mesh iterations lambda_factor σ =
    (Ok (fresh (dom σ)), <[fresh (dom σ) := MeshObj m]> σ).
Proof.
  intros Hm Hit. rewrite (smooth_mesh_run σ mesh m) by assumption.
  replace (Z.to_nat iterations) with 0%nat by lia. reflexivity.
Qed.

(** X11: smoothing composes.  Smoothing the result of [a] iterations by
    [b] more gives the mesh that [a + b] iterations give. *)
Theorem smooth_mesh_composes (σ σ1 σ2 : store) mesh m a b lambda_factor l1 l2 :
  σ !! mesh = Some (MeshObj m) ->
  0 <= a -> 0 <= b ->
  smooth_mesh mesh a lambda_factor σ = (Ok l1, σ1) ->
  smooth_mesh l1 b lambda_factor σ1 = (Ok l2, σ2) ->
  exists l σ' m',
    smooth_mesh mesh (a + b) lambda_factor σ = (Ok l, σ') /\
    σ' !! l = Some (MeshObj m') /\ σ2 !! l2 = Some (MeshObj m').
Proof.
  intros Hm Ha Hb. rewrite (smooth_mesh_run σ mesh m _ _ Hm). cbv zeta.
  destruct (smooth_run (Z.to_nat a) lambda_factor m) as [[[] | e] ma] eqn:Ea;
    [| discriminate].
  simpl. intros [= <- <-].
  rewrite (smooth_mesh_run _ _ ma) by apply lookup_insert_eq. cbv zeta.
  destruct (smooth_run (Z.to_nat b) lambda_factor ma) as [[[] | e] mb] eqn:Eb;
    [| discriminate].
  simpl. intros [= <- <-].
  rewrite (smooth_mesh_run σ mesh m _ _ Hm). cbv zeta.
  rewrite Z2Nat.inj_add by assumption. rewrite smooth_run_add, Ea, Eb. simpl.
  eexists _, _, mb. split; [reflexivity |]. split; apply lookup_insert_eq.
Qed.


(** X13: with [lambda_factor = 0] smoothing moves no vertex: the
    returned mesh has the faces and, vertex by vertex, the positions of
    the input. *)
Theorem smooth_mesh_lambda_zero (σ σ' : store) mesh m iterations lambda_factor l :
  σ !! mesh = Some (MeshObj m) ->
  (lambda_factor == 0)%Q ->
  smooth_mesh mesh iterations lambda_factor σ = (Ok l, σ') ->
  exists m', σ' !! l = Some (MeshObj m') /\
    faces m' = faces m /\ Forall2 vec3_eq (vertices m') (vertices m).
Proof.
  intros Hm Hl. rewrite (smooth_mesh_run σ mesh m _ _ Hm). cbv zeta.
  pose proof (smooth_run_invariant
    (fun m' => faces m' = faces m /\ Forall2 vec3_eq (vertices m') (vertices m))
    lambda_factor) as Hinv.
  specialize (Hinv ltac:(intros m1 m2 (F & E) Hp;
    destruct (smooth_pass_shape _ _ _ Hp) as [F2 _];
    split; [congruence |];
    eapply Forall2_vec3_eq_trans; [eapply smooth_pass_zero; eassumption | exact E])).
  specialize (Hinv (Z.to_nat iterations) m (conj eq_refl (Forall2_vec3_eq_refl _))).
  destruct (smooth_run _ _ _) as [[[] | e] m']; [| discriminate].
  simpl in *. intros [= <- <-]. exists m'. split; [apply lookup_insert_eq | exact Hinv].
Qed.
End SmoothingTheorems.

(** The statement of X10 at the triangle and [iterations = 0]. *)
Lemma smooth_mesh_no_iterations_witness :
  smooth_mesh (K := triangle_kernel) 0%nat 0 (1 # 2) (mesh_store triangle) =
    (Ok (fresh (dom (mesh_store triangle))),
     <[fresh (dom (mesh_store triangle)) := MeshObj triangle]> (mesh_store triangle)).
Proof.
  apply (smooth_mesh_no_iterations (K := triangle_kernel) (mesh_store triangle)
           0%nat triangle 0 (1 # 2)).
  - reflexivity.
  - lia.
Defined.

Lemma smooth_triangle_run iterations lambda_factor :
  let run := smooth_mesh (K := triangle_kernel) 0%nat iterations lambda_factor
               (mesh_store triangle) in
  run.1 = Ok 1%nat -> run = (Ok 1%nat, run.2).
Proof. cbv zeta. intros <-. apply surjective_pairing. Qed.

Lemma smooth_triangle_again :
  let run1 := smooth_mesh (K := triangle_kernel) 0%nat 1 (1 # 2) (mesh_store triangle) in
  let run2 := smooth_mesh (K := triangle_kernel) 1%nat 1 (1 # 2) run1.2 in
  run2 = (Ok 2%nat, run2.2).
Proof. cbv zeta. apply injective_projections; [vm_compute |]; reflexivity. Qed.

(** The statement of X11 at the triangle: one iteration after one
    iteration, and two iterations. *)
Lemma smooth_mesh_composes_witness :
  let run1 := smooth_mesh (K := triangle_kernel) 0%nat 1 (1 # 2) (mesh_store triangle) in
  let run2 := smooth_mesh (K := triangle_kernel) 1%nat 1 (1 # 2) run1.2 in
  exists l σ' m',
    smooth_mesh (K := triangle_kernel) 0%nat (1 + 1) (1 # 2) (mesh_store triangle)
      = (Ok l, σ') /\
    σ' !! l = Some (MeshObj m') /\ run2.2 !! 2%nat = Some (MeshObj m').
Proof.
  cbv zeta.
  apply (smooth_mesh_composes (K := triangle_kernel) (mesh_store triangle)
           (smooth_mesh (K := triangle_kernel) 0%nat 1 (1 # 2) (mesh_store triangle)).2
           _ 0%nat triangle 1 1 (1 # 2) 1%nat 2%nat).
  - reflexivity.
  - lia.
  - lia.
  - apply smooth_triangle_run. vm_compute. reflexivity.
  - exact smooth_triangle_again.
Defined.


(** The statement of X13 at the triangle. *)
Lemma smooth_mesh_lambda_zero_witness :
  let run := smooth_mesh (K := triangle_kernel) 0%nat 2 0 (mesh_store triangle) in
  exists m', run.2 !! 1%nat = Some (MeshObj m') /\
    faces m' = faces triangle /\ Forall2 vec3_eq (vertices m') (vertices triangle).
Proof.
  cbv zeta.
  apply (smooth_mesh_lambda_zero (K := triangle_kernel) (mesh_store triangle) _
           0%nat triangle 2 0 1%nat).
  - reflexivity.
  - reflexivity.
  - apply smooth_triangle_run. vm_compute. reflexivity.
Defined.

(** ** Repair, displacement and remeshing *)

Lemma load_mesh_bound (σ : store) l m :
  σ !! l = Some (MeshObj m) -> load_mesh l σ = (Ok m, σ).
Proof. intros H. unfold load_mesh, bindM, load, retM. rewrite H. reflexivity. Qed.

Lemma lookup_after_fresh (σ : store) l o o' :
  σ !! l = Some o -> <[fresh (dom σ) := o']> σ !! l = Some o.
Proof. apply preserves_insert_fresh. Qed.

Section MeshTheorems.
Context `{K : TrimeshKernel}.


Lemma apply_displacement_mismatch (σ : store) mesh m d amplitude along_normal :
  σ !! mesh = Some (MeshObj m) ->
  displacement_len d <> length (vertices m) ->
  apply_displacement mesh d amplitude along_normal σ =
    (Raise ValueError, <[fresh (dom σ) := MeshObj m]> σ).
Proof.
  intros Hm Hlen. unfold apply_displacement.
  rewrite (bindM_ok _ _ _ _ _ (copy_run _ _ _ Hm)).
  rewrite (bindM_ok _ _ _ _ _ (load_mesh_bound _ _ _ (lookup_after_fresh _ _ _ _ Hm))).
  apply Nat.eqb_neq in Hlen.
  destruct along_normal.
  - rewrite Hlen. reflexivity.
  - destruct d as [d | d]; [reflexivity |]. simpl in Hlen. rewrite Hlen. reflexivity.
Qed.

(** X15: a displacement field whose first dimension is not the number
    of vertices makes [apply_displacement] raise [ValueError], in both
    modes; the copy has been made by then, so the store gains one object,
    equal to the input, and the input is untouched. *)
Theorem apply_displacement_wrong_length (σ : store) mesh m d amplitude along_normal :
  σ !! mesh = Some (MeshObj m) ->
  displacement_len d <> length (vertices m) ->
  let run := apply_displacement mesh d amplitude along_normal σ in
  run.1 = Raise ValueError /\
  run.2 = <[fresh (dom σ) := MeshObj m]> σ /\
  run.2 !! mesh = Some (MeshObj m).
Proof.
  intros Hm Hlen. cbv zeta.
  rewrite (apply_displacement_mismatch σ mesh m d amplitude along_normal Hm Hlen).
  split; [reflexivity |]. split; [reflexivity |].
  apply lookup_after_fresh. assumption.
Qed.


End MeshTheorems.

Section Remeshing.
Context `{K : TrimeshKernel}.

(** X17: without a target, with the target 0 and with the target equal
    to the number of faces, [remesh_uniform] returns a copy of the input:
    no mesh is subdivided or decimated. *)
Theorem remesh_uniform_copies (σ : store) mesh m fuel target_edge_length target_faces :
  σ !! mesh = Some (MeshObj m) ->
  target_faces = None \/ target_faces = Some 0 \/
    target_faces = Some (Z.of_nat (length (faces m))) ->
  remesh_uniform fuel mesh target_edge_length target_faces σ =
    (Ok (Some (fresh (dom σ))), <[fresh (dom σ) := MeshObj m]> σ).
Proof.
  intros Hm Ht. unfold remesh_uniform.
  rewrite (bindM_ok _ _ _ _ _ (copy_run _ _ _ Hm)).
  destruct Ht as [-> | [-> | ->]]; [reflexivity | reflexivity |].
  destruct (Z.of_nat (length (faces m)) =? 0) eqn:E0; [reflexivity |].
  unfold bindM at 1. rewrite load_mesh_run. rewrite Z.ltb_irrefl.
  destruct fuel; simpl; unfold bindM; rewrite load_mesh_run, Z.ltb_irrefl; reflexivity.
Qed.




(** The loop on a mesh without faces, when [subdivide] adds none. *)
Lemma subdivide_loop_runs_on target :
  (forall m, faces m = [] -> faces (subdivide m) = []) ->
  0 < target ->
  forall fuel (σ : store) l m,
    σ !! l = Some (MeshObj m) -> faces m = [] ->
    (subdivide_loop fuel l target σ).1 = Ok None.
Proof.
  intros Hsub Ht fuel. induction fuel as [| fuel IH]; intros σ l m Hl Hnil.
  - cbn [subdivide_loop]. rewrite (bindM_ok _ _ _ _ _ (load_mesh_bound _ _ _ Hl)).
    rewrite Hnil. change (Z.of_nat (length (@nil (nat * nat * nat)))) with 0. assert (E : (0 <? target) = true) by (apply Z.ltb_lt; lia).
    rewrite E. reflexivity.
  - cbn [subdivide_loop]. rewrite (bindM_ok _ _ _ _ _ (load_mesh_bound _ _ _ Hl)).
    rewrite Hnil. change (Z.of_nat (length (@nil (nat * nat * nat)))) with 0.
    assert (E : (0 <? target) = true) by (apply Z.ltb_lt; lia). rewrite E.
    rewrite (bindM_ok _ _ _ _ _ (new_run _ _)).
    unfold bindM at 1. rewrite load_mesh_run.
    rewrite (Hsub m Hnil). change (Z.of_nat (length (@nil (nat * nat * nat)))) with 0.
    assert (E2 : (3 * target <? 2 * 0) = false) by (apply Z.ltb_ge; lia). rewrite E2.
    apply (IH _ _ (subdivide m)); [apply lookup_insert_eq | apply Hsub; assumption].
Qed.

(** X20: when [subdivide] gives a mesh without faces for a mesh without
    faces, [remesh_uniform] with a positive target does not return on
    such a mesh: its loop is still running after any number of
    iterations. *)
Theorem remesh_uniform_loops_without_faces (σ : store) mesh m target_edge_length target :
  (forall m, faces m = [] -> faces (subdivide m) = []) ->
  σ !! mesh = Some (MeshObj m) ->
  faces m = [] ->
  0 < target ->
  forall fuel,
    (remesh_uniform fuel mesh target_edge_length (Some target) σ).1 = Ok None.
Proof.
  intros Hsub Hm Hnil Ht fuel. unfold remesh_uniform.
  rewrite (bindM_ok _ _ _ _ _ (copy_run _ _ _ Hm)).
  assert (H0 : (target =? 0) = false) by (apply Z.eqb_neq; lia). rewrite H0.
  unfold bindM at 1. rewrite load_mesh_run. rewrite Hnil. change (Z.of_nat (length (@nil (nat * nat * nat)))) with 0.
  assert (Hnlt : (target <? 0) = false) by (apply Z.ltb_ge; lia). rewrite Hnlt.
  apply (subdivide_loop_runs_on target Hsub Ht fuel _ _ m);
    [apply lookup_insert_eq | assumption].
Qed.
End Remeshing.



Lemma table_kernel_subdivide_nil watertight winding vol areas box neighbors m :
  faces m = [] ->
  faces (subdivide (TrimeshKernel := table_kernel watertight winding vol areas
                                       box neighbors) m) = [].
Proof. intros Hnil. simpl. rewrite Hnil. reflexivity. Qed.


(** The statement of X15 at the triangle and one displacement value. *)
Lemma apply_displacement_wrong_length_witness :
  let run := apply_displacement (K := triangle_kernel) 0%nat (Scalars [1%Q]) 2 true
               (mesh_store triangle) in
  run.1 = Raise ValueError /\
  run.2 = <[fresh (dom (mesh_store triangle)) := MeshObj triangle]> (mesh_store triangle) /\
  run.2 !! 0%nat = Some (MeshObj triangle).
Proof.
  apply (apply_displacement_wrong_length (K := triangle_kernel) (mesh_store triangle)
           0%nat triangle (Scalars [1%Q]) 2 true).
  - reflexivity.
  - simpl. lia.
Defined.


(** The statement of X17 at the triangle, without a target. *)
Lemma remesh_uniform_copies_witness :
  remesh_uniform (K := triangle_kernel) 5 0%nat None None (mesh_store triangle) =
    (Ok (Some (fresh (dom (mesh_store triangle)))),
     <[fresh (dom (mesh_store triangle)) := MeshObj triangle]> (mesh_store triangle)).
Proof.
  apply (remesh_uniform_copies (K := triangle_kernel) (mesh_store triangle)
           0%nat triangle 5 None None).
  - reflexivity.
  - left. reflexivity.
Defined.



(** The statement of X20 at a mesh without faces, the target 4 and a
    thousand iterations. *)
Lemma remesh_uniform_loops_without_faces_witness :
  (remesh_uniform (K := triangle_kernel) 1000 0%nat None (Some 4)
     (mesh_store (mk_Trimesh [(0, 0, 0)%Q] []))).1 = Ok None.
Proof.
  apply (remesh_uniform_loops_without_faces (K := triangle_kernel)
           (mesh_store (mk_Trimesh [(0, 0, 0)%Q] [])) 0%nat
           (mk_Trimesh [(0, 0, 0)%Q] []) None 4).
  - intros m. apply table_kernel_subdivide_nil.
  - reflexivity.
  - reflexivity.
  - lia.
Defined.

(** ** Overhang analysis *)



Section Overhang.
Context `{O : OverhangKernel}.

End Overhang.

(** ** Extrusion of a pattern *)

(** The loop over the layers [lo, lo + 1, ..] of a field that has them:
    it completes, keeps the shape, writes the pattern into these layers
    and leaves the other layers. *)
Lemma extrude_loop_layers pattern_2d (k : nat) :
  forall lo f, 0 <= lo -> lo + Z.of_nat k <= shape2 f ->
  exists f', extrude_loop (seqZ lo (Z.of_nat k)) pattern_2d f = Ok f' /\
    same_shape f' f /\
    forall a b c,
      item f' a b c =
      if (lo <=? c) && (c <? lo + Z.of_nat k) then item2 pattern_2d a b else item f a b c.
Proof.
  induction k as [| k IH]; intros lo f Hlo Hhi.
  - exists f. split; [reflexivity |]. split; [repeat split |].
    intros a b c. destruct (lo <=? c) eqn:E1; [| reflexivity].
    destruct (c <? lo + Z.of_nat 0) eqn:E2; [| reflexivity].
    apply Z.leb_le in E1. apply Z.ltb_lt in E2. lia.
  - rewrite Nat2Z.inj_succ. rewrite seqZ_cons by lia.
    replace (Z.pred (Z.succ (Z.of_nat k))) with (Z.of_nat k) by lia.
    cbn [extrude_loop]. unfold set_layer.
    rewrite axis_index_in_range by lia. simpl mbind.
    match goal with |- context [extrude_loop _ _ ?g] => set (f1 := g) end.
    destruct (IH (Z.succ lo) f1 ltac:(lia) ltac:(subst f1; simpl; lia))
      as (f' & Hrun & Hshape & Hitems).
    exists f'. split; [exact Hrun |]. split; [exact Hshape |].
    intros a b c. rewrite Hitems. subst f1. cbn [item].
    destruct (Z.succ lo <=? c) eqn:E1, (c <? Z.succ lo + Z.of_nat k) eqn:E2,
             (lo <=? c) eqn:E3, (c <? lo + Z.succ (Z.of_nat k)) eqn:E4,
             (c =? lo) eqn:E5; cbn [andb]; try reflexivity;
      repeat match goal with
             | H : (_ <=? _) = true |- _ => apply Z.leb_le in H
             | H : (_ <=? _) = false |- _ => apply Z.leb_gt in H
             | H : (_ <? _) = true |- _ => apply Z.ltb_lt in H
             | H : (_ <? _) = false |- _ => apply Z.ltb_ge in H
             | H : (_ =? _) = true |- _ => apply Z.eqb_eq in H
             | H : (_ =? _) = false |- _ => apply Z.eqb_neq in H
             end; lia.
Qed.

(** X22: [create_field_from_pattern] returns a field of shape
    [(h, w, height_samples)] whose every layer is the pattern, whatever
    [extrude_height] is; a negative [height_samples] raises
    [ValueError]. *)
Theorem create_field_extrudes_pattern (pattern_2d : ndarray2) (height_samples : Z)
    (extrude_height : Q) :
  0 <= rows pattern_2d -> 0 <= cols pattern_2d ->
  (height_samples < 0 ->
   create_field_from_pattern pattern_2d height_samples extrude_height = Raise ValueError) /\
  (0 <= height_samples ->
   exists f, create_field_from_pattern pattern_2d height_samples extrude_height = Ok f /\
     shape0 f = rows pattern_2d /\ shape1 f = cols pattern_2d /\
     shape2 f = height_samples /\
     forall a b c, 0 <= c < height_samples -> item f a b c = item2 pattern_2d a b).
Proof.
  intros Hr Hc. unfold create_field_from_pattern, zeros. split.
  - intros Hneg. apply Z.ltb_lt in Hneg. rewrite Hneg, !orb_true_r. reflexivity.
  - intros Hh.
    assert (E : (rows pattern_2d <? 0) || (cols pattern_2d <? 0) || (height_samples <? 0)
                = false).
    { rewrite !orb_false_iff. repeat split; apply Z.ltb_ge; assumption. }
    rewrite E. simpl mbind.
    destruct (extrude_loop_layers pattern_2d (Z.to_nat height_samples) 0
                (mk_ndarray (rows pattern_2d) (cols pattern_2d) height_samples
                   (fun _ _ _ => 0%Q)) ltac:(lia) ltac:(simpl; lia))
      as (f & Hrun & (S0 & S1 & S2) & Hitems).
    rewrite Z2Nat.id in Hrun, Hitems by assumption.
    exists f. split; [exact Hrun |]. simpl in S0, S1, S2.
    split; [exact S0 |]. split; [exact S1 |]. split; [exact S2 |].
    intros a b c Hcr. rewrite Hitems.
    assert (E1 : (0 <=? c) = true) by (apply Z.leb_le; lia).
    assert (E2 : (c <? 0 + height_samples) = true) by (apply Z.ltb_lt; lia).
    rewrite E1, E2. reflexivity.
Qed.

(** The statement of X22 at the 2 x 2 pattern and three layers. *)
Lemma create_field_extrudes_pattern_witness :
  create_field_from_pattern checker (-1) 1 = Raise ValueError /\
  exists f, create_field_from_pattern checker 3 1 = Ok f /\
    shape2 f = 3 /\ forall a b c, 0 <= c < 3 -> item f a b c = item2 checker a b.
Proof.
  split.
  - apply (create_field_extrudes_pattern checker (-1) 1); simpl; lia.
  - destruct (create_field_extrudes_pattern checker 3 1) as [_ H]; [simpl; lia .. |].
    destruct H as (f & Hrun & _ & _ & S2 & Hitems); [lia |].
    exists f. auto.
Defined.

(** ** Isosurface extraction, with smoothing *)

Section IsosurfaceTheorems.
Context `{K : TrimeshKernel} `{S : Skimage}.

End IsosurfaceTheorems.


(** ** Notebook paths *)

Lemma elem_of_ancestors (current parent : list string) :
  parent ∈ ancestors current <-> exists k, (k <= length current)%nat /\ parent = take k current.
Proof.
  unfold ancestors. rewrite list_elem_of_fmap. split.
  - intros (k & -> & Hk). apply elem_of_reverse, elem_of_seq in Hk.
    exists k. split; [lia | reflexivity].
  - intros (k & Hk & ->). exists k. split; [reflexivity |].
    apply elem_of_reverse, elem_of_seq. lia.
Qed.

Section NotebookTheorems.
Variable path_exists : list string -> bool.
Variable resolve : list string -> list string.
Variable cwd : list string.
Variable path_str : list string -> string.

Lemma probe_sound parent root :
  probe path_exists parent = Some root ->
  (path_exists (root ++ ["setup.py"]) = true \/ path_exists (root ++ ["src"]) = true) /\
  (root = parent \/ root = parent ++ ["procedural-design"]).
Proof.
  unfold probe.
  destruct (path_exists (parent ++ ["procedural-design"; "setup.py"])) eqn:E1.
  { intros [= <-]. rewrite <- !app_assoc. simpl. auto. }
  destruct (path_exists (parent ++ ["procedural-design"; "src"])) eqn:E2.
  { intros [= <-]. rewrite <- !app_assoc. simpl. auto. }
  destruct (path_exists (parent ++ ["setup.py"]) && path_exists (parent ++ ["src"])) eqn:E3.
  { intros [= <-]. apply andb_true_iff in E3 as [E3 _]. auto. }
  destruct (String.eqb (path_name parent) "procedural-design"
            && path_exists (parent ++ ["src"])) eqn:E4; [| discriminate].
  intros [= <-]. apply andb_true_iff in E4 as [_ E4]. auto.
Qed.

Lemma first_probe_some parents root :
  first_probe path_exists parents = Some root ->
  exists before parent after,
    parents = before ++ parent :: after /\
    probe path_exists parent = Some root /\
    Forall (fun p => probe path_exists p = None) before.
Proof.
  induction parents as [| p rest IH]; simpl; [discriminate |].
  destruct (probe path_exists p) as [r |] eqn:Hp.
  - intros [= <-]. exists [], p, rest. split; [reflexivity |]. split; [assumption | constructor].
  - intros H. destruct (IH H) as (before & parent & after & -> & Hpr & Hb).
    exists (p :: before), parent, after. split; [reflexivity |]. split; [assumption |].
    constructor; assumption.
Qed.

Lemma first_probe_none parents :
  first_probe path_exists parents = None <->
  Forall (fun p => probe path_exists p = None) parents.
Proof.
  induction parents as [| p rest IH]; simpl.
  - split; [constructor | reflexivity].
  - destruct (probe path_exists p) as [r |] eqn:Hp.
    + split; [discriminate |]. intros H. apply Forall_cons in H as [H _]. congruence.
    + rewrite IH. split; [intros H; constructor; assumption |].
      intros H. apply Forall_cons in H as [_ H]. exact H.
Qed.

(** X24: a root that [find_project_root] returns is the resolved start
    path, one of its ancestors, or the child [procedural-design] of one
    of these; it has a [setup.py] or a [src]; and nothing closer to the
    start path passes a test of the loop. *)
Theorem find_project_root_nearest (start_path : option (list string)) root :
  find_project_root path_exists resolve cwd start_path = Some root ->
  let current := resolve (default cwd start_path) in
  exists k, (k <= length current)%nat /\
    probe path_exists (take k current) = Some root /\
    (root = take k current \/ root = take k current ++ ["procedural-design"]) /\
    (path_exists (root ++ ["setup.py"]) = true \/ path_exists (root ++ ["src"]) = true) /\
    forall j, (k < j <= length current)%nat -> probe path_exists (take j current) = None.
Proof.
  unfold find_project_root. cbv zeta. set (current := resolve (default cwd start_path)).
  intros H. apply first_probe_some in H as (before & parent & after & Hsplit & Hp & Hb).
  assert (Hk : exists k, (k <= length current)%nat /\ parent = take k current /\
                 length before = (length current - k)%nat).
  { unfold ancestors in Hsplit.
    assert (Hl : (length before < S (length current))%nat).
    { apply (f_equal length) in Hsplit.
      rewrite length_map, length_reverse, length_seq, length_app in Hsplit.
      simpl in Hsplit. lia. }
    assert (Hlk : ancestors current !! length before = Some parent).
    { unfold ancestors. rewrite Hsplit. rewrite lookup_app_r by lia.
      rewrite Nat.sub_diag. reflexivity. }
    unfold ancestors in Hlk. rewrite list_lookup_fmap in Hlk.
    destruct (reverse (seq 0 (S (length current))) !! length before) as [k |] eqn:Hk;
      [| discriminate].
    simpl in Hlk. injection Hlk as <-.
    rewrite reverse_lookup in Hk by (rewrite length_seq; lia).
    rewrite length_seq in Hk. apply lookup_seq in Hk as [Hk1 Hk2].
    exists k. split; [lia |]. split; [reflexivity | lia]. }
  destruct Hk as (k & Hk & -> & Hlen).
  exists k. split; [assumption |]. split; [assumption |].
  destruct (probe_sound _ _ Hp) as [Hex Hroot]. split; [assumption |]. split; [assumption |].
  intros j Hj.
  assert (Hin : ancestors current !! (length current - j)%nat = Some (take j current)).
  { unfold ancestors. rewrite list_lookup_fmap.
    rewrite reverse_lookup by (rewrite length_seq; lia). rewrite length_seq.
    rewrite lookup_seq_lt by lia. simpl. f_equal. f_equal. lia. }
  rewrite Hsplit in Hin.
  rewrite lookup_app_l in Hin by lia.
  eapply Forall_lookup_1 in Hb; [| exact Hin]. exact Hb.
Qed.

(** X25: [find_project_root] raises exactly when neither the resolved
    start path nor any of its ancestors passes a test of the loop. *)
Theorem find_project_root_raises_iff (start_path : option (list string)) :
  let current := resolve (default cwd start_path) in
  find_project_root path_exists resolve cwd start_path = None <->
  forall k, (k <= length current)%nat ->
    let parent := take k current in
    path_exists (parent ++ ["procedural-design"; "setup.py"]) = false /\
    path_exists (parent ++ ["procedural-design"; "src"]) = false /\
    (path_exists (parent ++ ["setup.py"]) = false \/
     path_exists (parent ++ ["src"]) = false) /\
    (path_name parent <> "procedural-design" \/ path_exists (parent ++ ["src"]) = false).
Proof.
  cbv zeta. unfold find_project_root. cbv zeta.
  set (current := resolve (default cwd start_path)).
  rewrite first_probe_none, Forall_forall.
  assert (Hprobe : forall parent, probe path_exists parent = None <->
    path_exists (parent ++ ["procedural-design"; "setup.py"]) = false /\
    path_exists (parent ++ ["procedural-design"; "src"]) = false /\
    (path_exists (parent ++ ["setup.py"]) = false \/
     path_exists (parent ++ ["src"]) = false) /\
    (path_name parent <> "procedural-design" \/ path_exists (parent ++ ["src"]) = false)).
  { intros parent. unfold probe.
    destruct (path_exists (parent ++ ["procedural-design"; "setup.py"]));
      [split; [discriminate | intros (? & _); discriminate] |].
    destruct (path_exists (parent ++ ["procedural-design"; "src"]));
      [split; [discriminate | intros (_ & ? & _); discriminate] |].
    destruct (String.eqb_spec (path_name parent) "procedural-design") as [Hn | Hn];
      destruct (path_exists (parent ++ ["setup.py"])), (path_exists (parent ++ ["src"]));
      simpl; split; try discriminate; try tauto;
      intros (_ & _ & [? | ?] & [? | ?]); congruence. }
  split.
  - intros H k Hk. apply Hprobe. apply H. apply elem_of_ancestors. eauto.
  - intros H parent Hin. apply elem_of_ancestors in Hin as (k & Hk & ->).
    apply Hprobe. apply H. assumption.
Qed.

(** X26: [setup_notebook_paths] puts the root at the front of [sys.path]
    unless it is there already, and keeps the other entries in their
    order; a second call with the same argument changes nothing, and a
    [sys.path] without duplicates stays without duplicates. *)
Theorem setup_notebook_paths_idempotent (project_root : option (list string))
    (sys_path sys_path' : list string) root :
  setup_notebook_paths path_exists resolve cwd path_str project_root sys_path
    = Some (root, sys_path') ->
  path_str root ∈ sys_path' /\
  (sys_path' = sys_path \/
   ((path_str root ∉ sys_path) /\ sys_path' = path_str root :: sys_path)) /\
  setup_notebook_paths path_exists resolve cwd path_str project_root sys_path'
    = Some (root, sys_path') /\
  (NoDup sys_path -> NoDup sys_path').
Proof.
  unfold setup_notebook_paths.
  destruct (match project_root with
            | None => find_project_root path_exists resolve cwd None
            | Some p => Some (resolve p)
            end) as [r |]; [| discriminate].
  cbv zeta. destruct (bool_decide (path_str r ∈ sys_path)) eqn:E.
  - intros [= <- <-]. apply bool_decide_eq_true in E.
    split; [assumption |]. split; [left; reflexivity |].
    split; [| tauto]. rewrite bool_decide_eq_true_2 by assumption. reflexivity.
  - intros [= <- <-]. apply bool_decide_eq_false in E.
    split; [left |]. split; [right; split; [assumption | reflexivity] |].
    split; [| intros Hnd; constructor; assumption].
    rewrite bool_decide_eq_true_2 by left. reflexivity.
Qed.
End NotebookTheorems.

(** The statement of X24 from a notebook directory beside the project. *)
Lemma find_project_root_nearest_witness :
  let current := ["home"; "u"; "notebooks"] in
  let root := ["home"; "u"; "procedural-design"] in
  exists k, (k <= length current)%nat /\
    probe sample_fs (take k current) = Some root /\
    (root = take k current \/ root = take k current ++ ["procedural-design"]) /\
    (sample_fs (root ++ ["setup.py"]) = true \/ sample_fs (root ++ ["src"]) = true) /\
    forall j, (k < j <= length current)%nat -> probe sample_fs (take j current) = None.
Proof.
  apply (find_project_root_nearest sample_fs (fun p => p) ["home"; "u"; "notebooks"]
           None ["home"; "u"; "procedural-design"]).
  vm_compute. reflexivity.
Defined.

(** The statement of X26 from the same directory, with one entry in
    [sys.path]. *)
Lemma setup_notebook_paths_idempotent_witness :
  let str := String.concat "/" in
  let root := ["home"; "u"; "procedural-design"] in
  let sys_path' := [str root; "lib"] in
  str root ∈ sys_path' /\
  (sys_path' = ["lib"] \/ ((str root ∉ ["lib"]) /\ sys_path' = str root :: ["lib"])) /\
  setup_notebook_paths sample_fs (fun p => p) ["home"; "u"; "notebooks"] str None sys_path'
    = Some (root, sys_path') /\
  (NoDup ["lib"] -> NoDup sys_path').
Proof.
  apply (setup_notebook_paths_idempotent sample_fs (fun p => p)
           ["home"; "u"; "notebooks"] (String.concat "/") None ["lib"]).
  vm_compute. reflexivity.
Defined.

(** ** The validation report as a whole *)

Section ValidationReport.
Context `{K : TrimeshKernel}.
Variable mesh : Trimesh.

Local Abbreviation degenerate := (count_close_to_zero (area_faces mesh)).
Local Abbreviation duplicates :=
  (Z.of_nat (length (vertices mesh)) - Z.of_nat (length (unique_rows (vertices mesh)))).

(** The entries of the report that the checks do not write. *)
Lemma validate_mesh_flags r :
  validate_mesh mesh = Ok r ->
  r !! "has_degenerate_faces" = Some (VBool (0 <? degenerate)) /\
  r !! "has_duplicate_vertices" = Some (VBool (0 <? duplicates)) /\
  r !! "is_volume" = Some (VBool (is_volume mesh)) /\
  r !! "volume" = Some (if is_volume mesh then VFloat (volume mesh) else VNone) /\
  r !! "num_vertices" = Some (VInt (Z.of_nat (length (vertices mesh)))) /\
  r !! "num_faces" = Some (VInt (Z.of_nat (length (faces mesh)))) /\
  exists lo hi, bounds mesh = Some (lo, hi) /\
    r !! "bounds" = Some (VBounds (lo, hi)) /\
    r !! "dimensions" = Some (VDims (hi.1.1 - lo.1.1) (hi.1.2 - lo.1.2) (hi.2 - lo.2)).
Proof.
  unfold validate_mesh.
  destruct (bounds mesh) as [[lo hi] |]; [| discriminate].
  intros [= <-].
  generalize (is_watertight mesh) (is_winding_consistent mesh) (0 <? degenerate)
    (0 <? duplicates) (Z.of_nat (length (faces mesh)) <? 50000) (is_volume mesh).
  intros [] [] [] [] [] []; repeat split; exists lo, hi; repeat split.
Qed.

(** X27: a returned report agrees with itself.  [is_valid] is true
    exactly when the list of errors is empty; [has_degenerate_faces] and
    [has_duplicate_vertices] are true exactly when the report has the
    keys [degenerate_faces] and [duplicate_vertices]; [volume] is [None]
    exactly when [is_volume] is false; [dimensions] is the difference of
    the two corners in [bounds]; and a mesh of 50000 faces or more never
    gets the warning about self-intersections. *)
Theorem validate_mesh_report_consistent (r : gmap string value) :
  validate_mesh mesh = Ok r ->
  (r !! "is_valid" = Some (VBool true) <-> r !! "errors" = Some (VList [])) /\
  (r !! "has_degenerate_faces" = Some (VBool true) <-> is_Some (r !! "degenerate_faces")) /\
  (r !! "has_duplicate_vertices" = Some (VBool true)
     <-> is_Some (r !! "duplicate_vertices")) /\
  (r !! "volume" = Some VNone <-> r !! "is_volume" = Some (VBool false)) /\
  (exists lo hi, r !! "bounds" = Some (VBounds (lo, hi)) /\
     r !! "dimensions" = Some (VDims (hi.1.1 - lo.1.1) (hi.1.2 - lo.1.2) (hi.2 - lo.2))) /\
  (50000 <= Z.of_nat (length (faces mesh)) ->
   exists ws, r !! "warnings" = Some (VList ws) /\
     "Mesh may have self-intersections or is not a volume" ∉ ws).
Proof.
  intros Hr.
  destruct (validate_mesh_entries mesh r Hr) as (Hv & Hd & Hu & He & Hw).
  destruct (validate_mesh_flags r Hr)
    as (Hhd & Hhu & Hiv & Hvol & _ & _ & lo & hi & _ & Hb & Hdim).
  split; [| split; [| split; [| split; [| split]]]].
  - rewrite Hv, He.
    destruct (is_watertight mesh), (0 <? degenerate); simpl; split; intros [=]; reflexivity.
  - rewrite Hhd, Hd. destruct (0 <? degenerate); split; try discriminate; eauto.
    intros [? [=]].
  - rewrite Hhu, Hu. destruct (0 <? duplicates); split; try discriminate; eauto.
    intros [? [=]].
  - rewrite Hvol, Hiv. destruct (is_volume mesh); split; intros [=]; reflexivity.
  - exists lo, hi. split; assumption.
  - intros Hbig. apply Z.ltb_ge in Hbig. rewrite Hbig in Hw. simpl in Hw.
    eexists. split; [exact Hw |]. rewrite app_nil_r.
    intros Hin.
    destruct (is_winding_consistent mesh), (0 <? duplicates); simpl in Hin;
      repeat (apply elem_of_cons in Hin as [Hin | Hin]);
      try (apply elem_of_nil in Hin; contradiction); try discriminate;
      apply (f_equal (String.get 0)) in Hin; simpl in Hin; discriminate.
Qed.
End ValidationReport.

(** The statement of X27 at the square. *)
Lemma validate_mesh_report_consistent_witness :
  exists r, validate_mesh (K := square_kernel) square = Ok r /\
    (r !! "is_valid" = Some (VBool true) <-> r !! "errors" = Some (VList [])) /\
    (r !! "has_degenerate_faces" = Some (VBool true) <-> is_Some (r !! "degenerate_faces")).
Proof.
  destruct (validate_mesh_returns (K := square_kernel) square) as [r Hr].
  - eexists. reflexivity.
  - exists r. split; [exact Hr |].
    destruct (validate_mesh_report_consistent (K := square_kernel) square r Hr)
      as (H1 & H2 & _).
    split; assumption.
Defined.
